(** * Binary-companion parameter conversion of the NIRISS AMI notebook

    A shallow embedding of the two functions defined in
    [notebooks/niriss_ami_binary/3_niriss_ami_binary.ipynb]:

    - [mag_diff(flux_ratio)]
    - [convert_params(x, y, f, ex, ey, ef, sigma=1)]

    together with the straight-line cells around them: the cell that calls
    [convert_params] and averages the magnitude error bars, the baseline
    and triangle lengths and their labels, the output-name slicing, the
    trimming of the image around its brightest pixel; and, from
    [notebooks/mos-spectroscopy/MOSspec_sv06_revised.ipynb], the wavelength
    grid, the uncertainty column, the selection of the rows with positive
    weight and the names of the template files.

    The notebook computes on numpy float64 scalars.  They are idealised
    here as real numbers: a finite value is [Some r]; [None] stands for
    the non-finite results numpy produces (nan, or an infinity) when a
    function is applied outside its domain.  Rounding, overflow and
    underflow are outside the model.

    Where the exponent range of float64 decides a property, the lines
    concerned are also written on binary64 numbers ([F64]), whose
    operations are the IEEE 754 ones. *)

From Stdlib Require Import Floats.
From Stdlib Require Import Ascii String List Sorted.
From Stdlib Require Import DecimalString DecimalNat DecimalZ.
From Stdlib Require Import Reals Machin Lra Lia ZArith Zfloor.
Import ListNotations.

Open Scope R_scope.

(** ** The numeric domain *)

Module Np.

(** An idealised numpy scalar. *)
Definition scalar := option R.

Definition fin (r : R) : scalar := Some r.

Definition lift1 (g : R -> R) (a : scalar) : scalar :=
  match a with
  | Some u => Some (g u)
  | None => None
  end.

Definition lift2 (g : R -> R -> R) (a b : scalar) : scalar :=
  match a, b with
  | Some u, Some v => Some (g u v)
  | _, _ => None
  end.

Definition add := lift2 Rplus.
Definition sub := lift2 Rminus.
Definition mul := lift2 Rmult.
Definition neg := lift1 Ropp.

(** [a / b]: a zero divisor gives nan or an infinity. *)
Definition div (a b : scalar) : scalar :=
  match a, b with
  | Some u, Some v => if Req_dec_T v 0 then None else Some (u / v)
  | _, _ => None
  end.

(** [a ** n] for a literal non-negative integer exponent. *)
Definition pow (a : scalar) (n : nat) : scalar := lift1 (fun u => u ^ n) a.

(** [np.sqrt]: nan on a negative argument. *)
Definition sqrt (a : scalar) : scalar :=
  match a with
  | Some u => if Rle_dec 0 u then Some (R_sqrt.sqrt u) else None
  | None => None
  end.

(** [np.log10]: minus infinity at 0, nan on a negative argument. *)
Definition log10 (a : scalar) : scalar :=
  match a with
  | Some u => if Rlt_dec 0 u then Some (ln u / ln 10) else None
  | None => None
  end.

(** The two-argument arctangent on reals: the angle in (-PI, PI] of the
    point with abscissa [b] and ordinate [a]. *)
Definition atan2 (a b : R) : R :=
  if Rlt_dec 0 b then atan (a / b)
  else if Rlt_dec b 0 then
    if Rle_dec 0 a then atan (a / b) + PI else atan (a / b) - PI
  else
    if Rlt_dec 0 a then PI / 2
    else if Rlt_dec a 0 then - (PI / 2)
    else 0.

(** [np.arctan2(a, b)]. *)
Definition arctan2 : scalar -> scalar -> scalar := lift2 atan2.

(** [np.rad2deg]. *)
Definition rad2deg_R (u : R) : R := u * (180 / PI).
Definition rad2deg : scalar -> scalar := lift1 rad2deg_R.

(** [np.abs]. *)
Definition abs : scalar -> scalar := lift1 Rabs.

(** [np.max] of a non-empty list, given by its first element and the
    rest; a nan among the elements is returned. *)
Definition amax (a : scalar) (rest : list scalar) : scalar :=
  fold_left (lift2 Rmax) rest a.

(** [np.mean] of a list: the sum over the count, nan on the empty list. *)
Definition mean (l : list scalar) : scalar :=
  div (fold_left add l (fin 0)) (fin (INR (List.length l))).

End Np.

Coercion Np.fin : R >-> Np.scalar.

Declare Scope np_scope.
Delimit Scope np_scope with np.
Bind Scope np_scope with Np.scalar.
Infix "+" := Np.add : np_scope.
Infix "-" := Np.sub : np_scope.
Infix "*" := Np.mul : np_scope.
Infix "/" := Np.div : np_scope.
Notation "- a" := (Np.neg a) : np_scope.
Infix "**" := Np.pow (at level 30, right associativity) : np_scope.

(** ** The notebook's functions *)

(** [def mag_diff(flux_ratio): return -2.5 * np.log10(flux_ratio)] *)
Definition mag_diff (flux_ratio : Np.scalar) : Np.scalar :=
  (Np.fin (-2.5) * Np.log10 flux_ratio)%np.

(** The 7-tuple returned by [convert_params], with the names of the
    local variables it is built from. *)
Record converted : Type := Converted {
  sep : Np.scalar;
  pa : Np.scalar;
  dm : Np.scalar;
  sep_unc : Np.scalar;
  pa_unc : Np.scalar;
  dm_upper : Np.scalar;
  dm_lower : Np.scalar
}.

(** [def convert_params(x, y, f, ex, ey, ef, sigma=1)] *)
Definition convert_params (x y f ex ey ef sigma : Np.scalar) : converted :=
  let sep := Np.sqrt (x ** 2 + y ** 2)%np in
  let pa := (Np.fin 360 + Np.rad2deg (Np.arctan2 x y))%np in
  let dm := mag_diff f in
  let sep_unc :=
    (Np.sqrt ((x / sep * ex) ** 2 + (y / sep * ey) ** 2) * sigma)%np in
  let pa_unc :=
    (Np.rad2deg
       (Np.sqrt ((y / sep ** 2 * ex) ** 2 + (- x / sep ** 2 * ey) ** 2))
     * sigma)%np in
  let dm_upper := mag_diff (f + ef * sigma)%np in
  let dm_lower := mag_diff (f - ef * sigma)%np in
  Converted sep pa dm sep_unc pa_unc dm_upper dm_lower.

(** The call with the default [sigma=1], as the notebook makes it. *)
Definition convert_params_default (x y f ex ey ef : Np.scalar) : converted :=
  convert_params x y f ex ey ef (Np.fin 1).

(** ** The separation lines on binary64

    The three lines of [convert_params] that compute the separation and
    the two propagated uncertainties, on IEEE 754 binary64 numbers with
    round to nearest.  [x**2] is the product [x * x], and [np.rad2deg]
    multiplies by the double nearest to 180/pi. *)

Module F64.

Definition sq (x : float) : float := (x * x)%float.

(** 0x1.ca5dc1a63c1f8p+5 is 57.29577951308232. *)
Definition rad2deg (x : float) : float :=
  (x * 0x1.ca5dc1a63c1f8p+5)%float.

(** [sep = np.sqrt(x**2 + y**2)] *)
Definition sep (x y : float) : float :=
  PrimFloat.sqrt (sq x + sq y)%float.

(** [sep_unc = np.sqrt((x/sep*ex)**2+(y/sep*ey)**2) * sigma] *)
Definition sep_unc (x y ex ey sigma : float) : float :=
  (PrimFloat.sqrt (sq (x / sep x y * ex) + sq (y / sep x y * ey))
   * sigma)%float.

(** [pa_unc = np.rad2deg(np.sqrt((y/sep**2*ex)**2+(-x/sep**2*ey)**2)) * sigma] *)
Definition pa_unc (x y ex ey sigma : float) : float :=
  (rad2deg (PrimFloat.sqrt (sq (y / sq (sep x y) * ex)
                            + sq (- x / sq (sep x y) * ey)))
   * sigma)%float.

End F64.

(** ** The documented formulas

    The closed forms the notebook's documentation gives for the separation
    and the two propagated uncertainties, written on reals exactly as they
    are worded, to be compared with what [convert_params] computes. *)

Module Spec.

Definition separation (x y : R) : R := sqrt (x ^ 2 + y ^ 2).

Definition separation_unc (x y ex ey sigma : R) : R :=
  sigma * sqrt ((x / separation x y * ex) ^ 2
                + (y / separation x y * ey) ^ 2).

Definition pa_unc (x y ex ey sigma : R) : R :=
  sigma * sqrt ((y / separation x y ^ 2 * ex) ^ 2
                + (- x / separation x y ^ 2 * ey) ^ 2).

End Spec.

(** A value is within [tol] of a target. *)
Definition approx (tol : R) (v : Np.scalar) (target : R) : Prop :=
  exists r, v = Some r /\ Rabs (r - target) <= tol.

(** ** Python sequences and strings *)

Module Py.

(** [l[i]]: a negative index counts from the end, an index outside
    [-len(l) .. len(l)-1] raises IndexError ([None]). *)
Definition index {A : Type} (l : list A) (i : Z) : option A :=
  let n := Z.of_nat (List.length l) in
  if (0 <=? i)%Z then nth_error l (Z.to_nat i)
  else if (- n <=? i)%Z then nth_error l (Z.to_nat (n + i))
  else None.

(** A slice bound brought into [0 .. n], as [slice.indices] does for a
    step of 1. *)
Definition bound (n i : Z) : Z :=
  if (i <? 0)%Z then Z.max 0 (n + i) else Z.min i n.

(** [l[start:stop]]. *)
Definition slice {A : Type} (l : list A) (start stop : Z) : list A :=
  let n := Z.of_nat (List.length l) in
  let a := bound n start in
  let b := bound n stop in
  firstn (Z.to_nat (b - a)) (skipn (Z.to_nat a) l).

(** [s[:stop]] on a string. *)
Definition str_slice_to (s : string) (stop : Z) : string :=
  string_of_list_ascii (slice (list_ascii_of_string s) 0 stop).

(** [str(i)] for an integer. *)
Definition str (i : Z) : string := NilEmpty.string_of_int (Z.to_int i).

Fixpoint zeros (k : nat) : string :=
  match k with
  | O => EmptyString
  | S k' => String "0" (zeros k')
  end.

(** ['{:05d}'.format(i)] for a non-negative integer: the decimal digits,
    padded with zeros on the left to a width of 5. *)
Definition format_05d (i : nat) : string :=
  let digits := NilEmpty.string_of_uint (Nat.to_uint i) in
  (zeros (5 - String.length digits) ++ digits)%string.

(** [acc = []; for x in xs: ...; acc.append(body(x))]: an exception in the
    body ([None]) ends the loop and the cell. *)
Fixpoint for_append {A B : Type} (body : A -> option B) (xs : list A)
    (acc : list B) : option (list B) :=
  match xs with
  | [] => Some acc
  | x :: xs' =>
      match body x with
      | Some b => for_append body xs' (acc ++ [b])
      | None => None
      end
  end.

End Py.

(** ** The AMI notebook: baselines and triangles *)

(** A row of the [STAXYZ] column: the position of one mask hole. *)
Definition hole_pos : Type := (R * R * R)%type.

Definition hole_x (p : hole_pos) : R := fst (fst p).
Definition hole_y (p : hole_pos) : R := snd (fst p).

(** [np.abs(np.sqrt((x2 - x1)**2. + (y2 - y1)**2.))] *)
Definition baseline_length (p1 p2 : hole_pos) : Np.scalar :=
  let x1 := Np.fin (hole_x p1) in
  let y1 := Np.fin (hole_y p1) in
  let x2 := Np.fin (hole_x p2) in
  let y2 := Np.fin (hole_y p2) in
  Np.abs (Np.sqrt ((x2 - x1) ** 2 + (y2 - y1) ** 2))%np.

(** The body of [for bl in bl_idx]. *)
Definition baseline_of (hole_ctrs : list hole_pos) (bl : Z * Z)
  : option Np.scalar :=
  let hole1 := (fst bl - 1)%Z in
  let hole2 := (snd bl - 1)%Z in
  match Py.index hole_ctrs hole1, Py.index hole_ctrs hole2 with
  | Some p1, Some p2 => Some (baseline_length p1 p2)
  | _, _ => None
  end.

Definition baselines (hole_ctrs : list hole_pos) (bl_idx : list (Z * Z))
  : option (list Np.scalar) :=
  Py.for_append (baseline_of hole_ctrs) bl_idx [].

(** The body of [for tri in tri_idx]: the three side lengths and the
    longest of them. *)
Definition triangle_of (hole_ctrs : list hole_pos) (tri : Z * Z * Z)
  : option (list Np.scalar * Np.scalar) :=
  let hole1 := (fst (fst tri) - 1)%Z in
  let hole2 := (snd (fst tri) - 1)%Z in
  let hole3 := (snd tri - 1)%Z in
  match Py.index hole_ctrs hole1, Py.index hole_ctrs hole2,
        Py.index hole_ctrs hole3 with
  | Some p1, Some p2, Some p3 =>
      let length12 := baseline_length p1 p2 in
      let length23 := baseline_length p2 p3 in
      let length31 := baseline_length p3 p1 in
      let tri_lengths := [length12; length23; length31] in
      Some (tri_lengths, Np.amax length12 [length23; length31])
  | _, _, _ => None
  end.

(** [tri_baselines] and [tri_longest], filled in step. *)
Definition triangles (hole_ctrs : list hole_pos) (tri_idx : list (Z * Z * Z))
  : option (list (list Np.scalar) * list Np.scalar) :=
  match Py.for_append (triangle_of hole_ctrs) tri_idx [] with
  | Some rows => Some (map fst rows, map snd rows)
  | None => None
  end.

(** [str(idx[0])+'_'+str(idx[1])] *)
Definition bl_string (idx : Z * Z) : string :=
  (Py.str (fst idx) ++ "_" ++ Py.str (snd idx))%string.

Definition bl_strings (bl_idx : list (Z * Z)) : list string :=
  map bl_string bl_idx.

(** [str(idx[0])+'_'+str(idx[1])+'_'+str(idx[2])] *)
Definition tri_string (idx : Z * Z * Z) : string :=
  (Py.str (fst (fst idx)) ++ "_" ++ Py.str (snd (fst idx)) ++ "_"
   ++ Py.str (snd idx))%string.

Definition tri_strings (tri_idx : list (Z * Z * Z)) : list string :=
  map tri_string tri_idx.

(** [obase[:-4] + suffix], the name of a figure written next to [obase]. *)
Definition figure_name (obase suffix : string) : string :=
  (Py.str_slice_to obase (-4) ++ suffix)%string.

(** ** The AMI notebook: the cell that calls [convert_params] *)

(** [np.mean([dm-dm_upper, dm_lower-dm])] *)
Definition dm_unc (dm dm_upper dm_lower : Np.scalar) : Np.scalar :=
  Np.mean [(dm - dm_upper)%np; (dm_lower - dm)%np].

(** The cell itself: [p] and [dp] are [fit["p"]] and [fit["dp"]], and [dm]
    is the notebook-level variable of that name (the expected magnitude
    difference), which the cell reads. *)
Definition best_fit_cell (dm : Np.scalar) (p dp : list Np.scalar)
  : option (converted * Np.scalar) :=
  match Py.index p 1, Py.index dp 1, Py.index p 2, Py.index dp 2,
        Py.index p 0, Py.index dp 0 with
  | Some x, Some ex, Some y, Some ey, Some f, Some ef =>
      let r := convert_params x y f ex ey ef (Np.fin 1) in
      Some (r, dm_unc dm (dm_upper r) (dm_lower r))
  | _, _, _, _, _, _ => None
  end.

(** ** The AMI notebook: trimming around the brightest pixel *)

(** [bright_im[down:up, left:right]] with the window of 30 pixels on each
    side of the pixel at row [r], column [c]. *)
Definition trimmed {A : Type} (bright_im : list (list A)) (r c : Z)
  : list (list A) :=
  let left := (c - 30)%Z in
  let right := (c + 30)%Z in
  let down := (r - 30)%Z in
  let up := (r + 30)%Z in
  map (fun row => Py.slice row left right) (Py.slice bright_im down up).

(** ** The spectroscopy notebook *)

(** [np.arange(n)*cd + crval] *)
Definition wave (n : nat) (cd crval : R) : list R :=
  map (fun i => INR i * cd + crval) (seq 0 n).

(** [1./ np.sqrt(wht)], element by element. *)
Definition unc (wht : list R) : list Np.scalar :=
  map (fun w => (Np.fin 1 / Np.sqrt (Np.fin w))%np) wht.

(** A row of the [dataspec] table. *)
Record spec_row : Type := SpecRow {
  wavelength : R;
  flux : R;
  weight : R;
  uncertainty : Np.scalar
}.

(** The table built from the four columns; columns of different lengths
    are refused ([None]). *)
Definition dataspec (flux wht : list R) (cd crval : R)
  : option (list spec_row) :=
  if Nat.eqb (List.length flux) (List.length wht) then
    Some (map (fun t : R * R * (R * Np.scalar) =>
                 SpecRow (fst (fst t)) (snd (fst t)) (fst (snd t))
                         (snd (snd t)))
              (combine (combine (wave (List.length flux) cd crval) flux)
                       (combine wht (unc wht))))
  else None.

Definition positive_weight (row : spec_row) : bool :=
  if Rlt_dec 0 (weight row) then true else false.

(** [dataspec[dataspec['weight'] > 0.]] *)
Definition dataspec_sub (dataspec : list spec_row) : list spec_row :=
  filter positive_weight dataspec.

(** ["{0}{1:05d}.dat".format(templatedir, i)] *)
Definition template_file (templatedir : string) (i : nat) : string :=
  (templatedir ++ Py.format_05d i ++ ".dat")%string.

(** The files read by [for i in range (1, 101)]. *)
Definition template_files (templatedir : string) : list string :=
  map (template_file templatedir) (seq 1 100).

(** ** Basic facts about the numeric domain *)

Lemma sum_sq_nonneg (a b : R) : 0 <= a ^ 2 + b ^ 2.
Proof. nra. Qed.

Lemma sum_sq_pos (x y : R) : x <> 0 \/ y <> 0 -> 0 < x ^ 2 + y ^ 2.
Proof. intros [H | H]; nra. Qed.

Lemma pair_neq_origin (x y : R) : (x, y) <> (0, 0) -> x <> 0 \/ y <> 0.
Proof.
  intros H. destruct (Req_dec_T x 0) as [Hx | Hx]; [right | now left].
  intros Hy. apply H. now rewrite Hx, Hy.
Qed.

Lemma np_sqrt_nonneg (u : R) : 0 <= u -> Np.sqrt (Some u) = Some (sqrt u).
Proof.
  intros H. unfold Np.sqrt. destruct (Rle_dec 0 u); [reflexivity | contradiction].
Qed.

Lemma np_div_nonzero (u v : R) :
  v <> 0 -> Np.div (Some u) (Some v) = Some (u / v).
Proof.
  intros H. unfold Np.div. destruct (Req_dec_T v 0); [contradiction | reflexivity].
Qed.

Lemma np_div_zero (u : R) : Np.div (Some u) (Some 0) = None.
Proof.
  unfold Np.div. destruct (Req_dec_T 0 0) as [_ | H]; [reflexivity | now elim H].
Qed.

Lemma np_log10_pos (u : R) : 0 < u -> Np.log10 (Some u) = Some (ln u / ln 10).
Proof.
  intros H. unfold Np.log10. destruct (Rlt_dec 0 u); [reflexivity | contradiction].
Qed.

Lemma np_log10_nonpos (u : R) : u <= 0 -> Np.log10 (Some u) = None.
Proof.
  intros H. unfold Np.log10. destruct (Rlt_dec 0 u); [lra | reflexivity].
Qed.

Lemma ln_10_pos : 0 < ln 10.
Proof. rewrite <- ln_1. apply ln_increasing; lra. Qed.

Lemma mag_diff_pos (u : R) :
  0 < u -> mag_diff (Some u) = Some (-2.5 * (ln u / ln 10)).
Proof.
  intros H. unfold mag_diff. rewrite (np_log10_pos _ H). reflexivity.
Qed.

Lemma mag_diff_nonpos (u : R) : u <= 0 -> mag_diff (Some u) = None.
Proof.
  intros H. unfold mag_diff. rewrite (np_log10_nonpos _ H). reflexivity.
Qed.

Lemma mag_diff_none_iff (u : R) : mag_diff (Some u) = None <-> u <= 0.
Proof.
  split.
  - intros H. destruct (Rlt_dec 0 u) as [Hu | Hu]; [| lra].
    rewrite (mag_diff_pos _ Hu) in H. discriminate.
  - apply mag_diff_nonpos.
Qed.

Lemma mag_diff_decreasing (u v : R) :
  0 < u -> u < v -> -2.5 * (ln v / ln 10) < -2.5 * (ln u / ln 10).
Proof.
  intros Hu Huv.
  pose proof ln_10_pos as H10.
  pose proof (ln_increasing u v Hu Huv) as Hln.
  assert (ln u / ln 10 < ln v / ln 10).
  { unfold Rdiv. apply Rmult_lt_compat_r; [now apply Rinv_0_lt_compat | exact Hln]. }
  lra.
Qed.

(** The step from [f] up to [f + d] changes the magnitude difference by
    less than the step from [f] down to [f - d]. *)
Lemma mag_steps_asymmetric (f d : R) :
  0 < d -> 0 < f - d ->
  -2.5 * (ln f / ln 10) - -2.5 * (ln (f + d) / ln 10)
  < -2.5 * (ln (f - d) / ln 10) - -2.5 * (ln f / ln 10).
Proof.
  intros Hd Hlow. pose proof ln_10_pos as H10.
  assert (Hln : ln (f + d) + ln (f - d) < ln f + ln f).
  { rewrite <- !ln_mult by lra. apply ln_increasing; nra. }
  set (a := ln (f + d)) in *. set (b := ln (f - d)) in *.
  set (c := ln f) in *.
  assert (Hq : (a + b) / ln 10 < (c + c) / ln 10).
  { unfold Rdiv. apply Rmult_lt_compat_r; [now apply Rinv_0_lt_compat | exact Hln]. }
  replace ((a + b) / ln 10) with (a / ln 10 + b / ln 10) in Hq by (field; lra).
  replace ((c + c) / ln 10) with (c / ln 10 + c / ln 10) in Hq by (field; lra).
  lra.
Qed.

(** Evaluate the lifted arithmetic on finite values, leaving the partial
    operations ([Np.sqrt], [Np.div], [Np.log10]) in place. *)
Ltac np_arith :=
  cbn [sep pa dm sep_unc pa_unc dm_upper dm_lower
       Np.pow Np.add Np.sub Np.mul Np.neg Np.arctan2 Np.rad2deg
       Np.lift1 Np.lift2 Np.fin].

(** The separation and its use as a divisor. *)
Lemma sep_value (x y f ex ey ef sigma : R) :
  sep (convert_params x y f ex ey ef sigma) = Some (sqrt (x ^ 2 + y ^ 2)).
Proof.
  unfold convert_params; np_arith. apply np_sqrt_nonneg, sum_sq_nonneg.
Qed.

Lemma sep_unc_value (x y f ex ey ef sigma : R) :
  x <> 0 \/ y <> 0 ->
  sep_unc (convert_params x y f ex ey ef sigma) =
  Some (sqrt ((x / sqrt (x ^ 2 + y ^ 2) * ex) ^ 2
              + (y / sqrt (x ^ 2 + y ^ 2) * ey) ^ 2) * sigma).
Proof.
  intros H. pose proof (sqrt_lt_R0 _ (sum_sq_pos x y H)) as Hs.
  unfold convert_params; np_arith.
  rewrite (np_sqrt_nonneg _ (sum_sq_nonneg x y)).
  rewrite !np_div_nonzero by lra. np_arith.
  rewrite np_sqrt_nonneg by apply sum_sq_nonneg. reflexivity.
Qed.

Lemma pa_unc_value (x y f ex ey ef sigma : R) :
  x <> 0 \/ y <> 0 ->
  pa_unc (convert_params x y f ex ey ef sigma) =
  Some (Np.rad2deg_R
          (sqrt ((y / sqrt (x ^ 2 + y ^ 2) ^ 2 * ex) ^ 2
                 + (- x / sqrt (x ^ 2 + y ^ 2) ^ 2 * ey) ^ 2)) * sigma).
Proof.
  intros H. pose proof (sqrt_lt_R0 _ (sum_sq_pos x y H)) as Hs.
  unfold convert_params; np_arith.
  rewrite (np_sqrt_nonneg _ (sum_sq_nonneg x y)). np_arith.
  rewrite !np_div_nonzero by (apply Rgt_not_eq; nra). np_arith.
  rewrite np_sqrt_nonneg by apply sum_sq_nonneg. reflexivity.
Qed.

(** At the origin the separation is 0 and both uncertainties divide by it. *)
Lemma sep_origin (f ex ey ef sigma : R) :
  sep (convert_params 0 0 f ex ey ef sigma) = Some 0.
Proof.
  rewrite sep_value. f_equal.
  replace (0 ^ 2 + 0 ^ 2) with 0 by ring. apply sqrt_0.
Qed.


Lemma pa_value (x y f ex ey ef sigma : R) :
  pa (convert_params x y f ex ey ef sigma) =
  Some (360 + Np.rad2deg_R (Np.atan2 x y)).
Proof. reflexivity. Qed.

Lemma dm_value (x y f ex ey ef sigma : R) :
  dm (convert_params x y f ex ey ef sigma) = mag_diff (Some f).
Proof. reflexivity. Qed.

Lemma dm_upper_value (x y f ex ey ef sigma : R) :
  dm_upper (convert_params x y f ex ey ef sigma) =
  mag_diff (Some (f + ef * sigma)).
Proof. reflexivity. Qed.

Lemma dm_lower_value (x y f ex ey ef sigma : R) :
  dm_lower (convert_params x y f ex ey ef sigma) =
  mag_diff (Some (f - ef * sigma)).
Proof. reflexivity. Qed.

(** ** The two-argument arctangent *)

Section Atan2.

Ltac case_Rlt :=
  match goal with
  | |- context [Rlt_dec ?a ?b] => destruct (Rlt_dec a b)
  end.

Lemma sin_period_Z (x : R) (k : Z) : sin (x + 2 * IZR k * PI) = sin x.
Proof.
  destruct (Z_le_gt_dec 0 k) as [Hk | Hk].
  - rewrite <- (Z2Nat.id k Hk), <- INR_IZR_INZ. apply sin_period.
  - rewrite <- (sin_period (x + 2 * IZR k * PI) (Z.to_nat (- k))).
    f_equal. rewrite INR_IZR_INZ, Z2Nat.id by lia. rewrite opp_IZR. ring.
Qed.

Lemma cos_period_Z (x : R) (k : Z) : cos (x + 2 * IZR k * PI) = cos x.
Proof.
  destruct (Z_le_gt_dec 0 k) as [Hk | Hk].
  - rewrite <- (Z2Nat.id k Hk), <- INR_IZR_INZ. apply cos_period.
  - rewrite <- (cos_period (x + 2 * IZR k * PI) (Z.to_nat (- k))).
    f_equal. rewrite INR_IZR_INZ, Z2Nat.id by lia. rewrite opp_IZR. ring.
Qed.

(** Every angle has a representative in (-PI, PI]. *)
Lemma angle_reduce (t : R) :
  exists k : Z, - PI < t - 2 * IZR k * PI <= PI.
Proof.
  pose proof PI_RGT_0 as Hpi.
  set (q := (PI - t) / (2 * PI)).
  destruct (Zfloor_bound q) as [Hlo Hhi].
  exists (- Zfloor q)%Z. rewrite opp_IZR.
  assert (Hq : q * (2 * PI) = PI - t) by (unfold q; field; lra).
  split; nra.
Qed.

Lemma tan_shift_PI (u : R) : cos u <> 0 -> tan (u + PI) = tan u.
Proof.
  intros H. unfold tan. rewrite neg_sin, neg_cos. field. exact H.
Qed.

(** On the principal range, [atan2 (sin u) (cos u)] gives the angle back. *)
Lemma atan2_sin_cos_principal (u : R) :
  - PI < u <= PI -> Np.atan2 (sin u) (cos u) = u.
Proof.
  intros [Hlo Hhi]. pose proof PI_RGT_0 as Hpi. unfold Np.atan2.
  destruct (Rlt_dec u (- (PI / 2))) as [H1 | H1];
    [| destruct (Req_dec_T u (- (PI / 2))) as [H2 | H2];
       [| destruct (Rlt_dec u (PI / 2)) as [H3 | H3];
          [| destruct (Req_dec_T u (PI / 2)) as [H4 | H4]]]].
  - (* third quadrant *)
    assert (Hc : cos u < 0).
    { rewrite <- cos_neg. apply cos_lt_0; lra. }
    assert (Hs : sin u < 0) by (apply sin_lt_0_var; lra).
    destruct (Rlt_dec 0 (cos u)); [lra |].
    destruct (Rlt_dec (cos u) 0); [| lra].
    destruct (Rle_dec 0 (sin u)); [lra |].
    fold (tan u). rewrite <- tan_shift_PI by lra.
    rewrite atan_tan by lra. ring.
  - (* straight down *)
    subst u. rewrite cos_neg, sin_neg, cos_PI2, sin_PI2.
    repeat case_Rlt; lra.
  - (* right half plane *)
    assert (Hc : 0 < cos u) by (apply cos_gt_0; lra).
    destruct (Rlt_dec 0 (cos u)); [| lra].
    fold (tan u). apply atan_tan. lra.
  - (* straight up *)
    subst u. rewrite cos_PI2, sin_PI2.
    repeat case_Rlt; lra.
  - (* second quadrant *)
    assert (Hc : cos u < 0) by (apply cos_lt_0; lra).
    assert (Hs : 0 <= sin u) by (apply sin_ge_0; lra).
    destruct (Rlt_dec 0 (cos u)); [lra |].
    destruct (Rlt_dec (cos u) 0); [| lra].
    destruct (Rle_dec 0 (sin u)); [| lra].
    fold (tan u).
    assert (Hc' : cos (u - PI) <> 0).
    { assert (E : cos (u - PI + PI) = cos u) by (f_equal; ring).
      rewrite neg_cos in E. lra. }
    replace (tan u) with (tan (u - PI)).
    + rewrite atan_tan by lra. ring.
    + rewrite <- (tan_shift_PI (u - PI) Hc'). f_equal. ring.
Qed.

(** Scaling both arguments by a positive factor leaves the angle alone. *)
Lemma atan2_scale (s a b : R) :
  0 < s -> Np.atan2 (s * a) (s * b) = Np.atan2 a b.
Proof.
  intros Hs. unfold Np.atan2.
  assert (Hr : b <> 0 -> s * a / (s * b) = a / b) by (intros; field; lra).
  destruct (Rlt_dec 0 b), (Rlt_dec 0 (s * b)); try nra.
  - now rewrite Hr by lra.
  - destruct (Rlt_dec b 0), (Rlt_dec (s * b) 0); try nra.
    + rewrite Hr by lra.
      destruct (Rle_dec 0 a), (Rle_dec 0 (s * a)); try nra; reflexivity.
    + destruct (Rlt_dec 0 a), (Rlt_dec 0 (s * a)); try nra.
      destruct (Rlt_dec a 0), (Rlt_dec (s * a) 0); try nra.
Qed.

Lemma atan2_polar (s t : R) :
  0 < s ->
  exists k : Z, Np.atan2 (s * sin t) (s * cos t) = t + 2 * IZR k * PI.
Proof.
  intros Hs. destruct (angle_reduce t) as [k Hk].
  exists (- k)%Z. rewrite atan2_scale by exact Hs.
  rewrite <- (sin_period_Z t (- k)), <- (cos_period_Z t (- k)).
  rewrite opp_IZR.
  replace (t + 2 * - IZR k * PI) with (t - 2 * IZR k * PI) by ring.
  now apply atan2_sin_cos_principal.
Qed.

Lemma atan2_first_quadrant (a b : R) :
  0 < b -> Np.atan2 a b = atan (a / b).
Proof.
  intros H. unfold Np.atan2. destruct (Rlt_dec 0 b); [reflexivity | lra].
Qed.

End Atan2.

(** ** Numeric enclosures *)

Section Enclosures.

Lemma PI_bounds : 3.1415 < PI < 3.1416.
Proof.
  pose proof (PI_2_3_7_ineq 2) as [Hlo Hhi].
  unfold PI_2_3_7_tg, tg_alt, Ratan_seq in Hlo, Hhi.
  cbn [sum_f_R0 Nat.mul Nat.add] in Hlo, Hhi.
  cbn [Nat.mul Nat.add INR pow] in Hlo, Hhi.
  split; lra.
Qed.

(** Turn the Taylor enclosures of [sin] and [cos] at a rational point into
    rational inequalities. *)
Ltac expand_trig_bounds H :=
  unfold sin_lb, sin_ub, cos_lb, cos_ub, sin_approx, cos_approx,
    sin_term, cos_term in H;
  cbn [sum_f_R0 Nat.mul Nat.add] in H;
  repeat rewrite fact_simpl in H;
  change (fact 0) with 1%nat in H;
  repeat rewrite mult_INR in H;
  cbn [INR pow] in H.

Ltac tan_at_point a :=
  let Hs := fresh "Hs" in
  let Hc := fresh "Hc" in
  pose proof PI_bounds as [? ?];
  assert (Hs : sin_lb a <= sin a <= sin_ub a) by (apply SIN; lra);
  assert (Hc : cos_lb a <= cos a <= cos_ub a) by (apply COS; lra);
  expand_trig_bounds Hs; expand_trig_bounds Hc;
  assert (0 < cos a) by lra;
  unfold tan; apply Rmult_lt_reg_r with (cos a); [assumption |];
  replace (sin a / cos a * cos a) with (sin a) by (field; lra);
  lra.

Lemma tan_below_ratio : tan (20 / 17) < 258.7 / 107.3.
Proof. tan_at_point (20 / 17). Qed.

Lemma tan_above_ratio : 258.7 / 107.3 < tan (53 / 45).
Proof. tan_at_point (53 / 45). Qed.

Lemma atan_ratio_bounds : 20 / 17 < atan (258.7 / 107.3) < 53 / 45.
Proof.
  pose proof PI_bounds as [Hp1 Hp2]. split.
  - rewrite <- (atan_tan (20 / 17)) at 1 by lra.
    apply atan_increasing, tan_below_ratio.
  - rewrite <- (atan_tan (53 / 45)) at 1 by lra.
    apply atan_increasing, tan_above_ratio.
Qed.

Lemma rad2deg_enclosure (a lo hi : R) :
  lo * 3.1416 < 180 * a -> 180 * a < hi * 3.1415 -> 0 < lo ->
  lo < Np.rad2deg_R a < hi.
Proof.
  intros H1 H2 Hlo. pose proof PI_bounds as [Hp1 Hp2].
  unfold Np.rad2deg_R.
  assert (E : a * (180 / PI) * PI = 180 * a) by (field; lra).
  set (d := a * (180 / PI)) in *.
  split.
  - destruct (Rlt_dec lo d) as [? | Hn]; [assumption | exfalso].
    assert (d * PI <= lo * PI) by (apply Rmult_le_compat_r; lra).
    assert (lo * PI < lo * 3.1416) by (apply Rmult_lt_compat_l; lra).
    lra.
  - destruct (Rlt_dec d hi) as [? | Hn]; [assumption | exfalso].
    assert (0 < hi) by lra.
    assert (hi * PI <= d * PI) by (apply Rmult_le_compat_r; lra).
    assert (hi * 3.1415 < hi * PI) by (apply Rmult_lt_compat_l; lra).
    lra.
Qed.

Lemma sep_scenario_bounds : 280 < sqrt (258.7 ^ 2 + 107.3 ^ 2) < 280.1.
Proof.
  split.
  - rewrite <- (sqrt_pow2 280) at 1 by lra. apply sqrt_lt_1; lra.
  - rewrite <- (sqrt_pow2 280.1) at 1 by lra. apply sqrt_lt_1; lra.
Qed.

Lemma log_scenario_bounds :
  -1.64 * ln 10 < ln 0.024 < -1.6 * ln 10.
Proof.
  assert (H24 : 0 < 0.024) by lra.
  assert (H10 : 0 < 10) by lra.
  pose proof (ln_pow 0.024 H24 5) as E5.
  pose proof (ln_pow 0.024 H24 25) as E25.
  pose proof (ln_pow 10 H10 8) as T8.
  pose proof (ln_pow 10 H10 41) as T41.
  assert (P8 : 0 < 10 ^ 8) by (apply pow_lt; lra).
  assert (P41 : 0 < 10 ^ 41) by (apply pow_lt; lra).
  pose proof (ln_Rinv _ P8) as I8.
  pose proof (ln_Rinv _ P41) as I41.
  assert (U : ln (0.024 ^ 5) < ln (/ 10 ^ 8)).
  { apply ln_increasing; [apply pow_lt; lra |].
    apply Rmult_lt_reg_r with (10 ^ 8); [exact P8 |].
    rewrite Rinv_l by lra. cbn [pow]. lra. }
  assert (L : ln (/ 10 ^ 41) < ln (0.024 ^ 25)).
  { apply ln_increasing; [now apply Rinv_0_lt_compat |].
    apply Rmult_lt_reg_r with (10 ^ 41); [exact P41 |].
    rewrite Rinv_l by lra. cbn [pow]. lra. }
  rewrite E5, I8, T8 in U. rewrite E25, I41, T41 in L.
  cbn [INR] in U, L. split; lra.
Qed.

End Enclosures.

(** ** Properties of [mag_diff] *)

(** C8: for a flux ratio of 1 the magnitude difference
    [mag_diff(1) = -2.5 * log10(1)] is exactly 0. *)
Theorem mag_diff_one : mag_diff (Np.fin 1) = Some 0.
Proof.
  unfold Np.fin. rewrite mag_diff_pos by lra.
  rewrite ln_1. f_equal. pose proof ln_10_pos. field. lra.
Qed.

(** C6: monotonicity.  For flux ratios [0 < f1 < f2] both magnitude
    differences are defined and [mag_diff f2] is strictly below
    [mag_diff f1]. *)
Theorem mag_diff_strictly_decreasing (f1 f2 : R) :
  0 < f1 -> f1 < f2 ->
  exists m1 m2 : R,
    mag_diff f1 = Some m1 /\ mag_diff f2 = Some m2 /\ m2 < m1.
Proof.
  intros H1 H12. unfold Np.fin.
  exists (-2.5 * (ln f1 / ln 10)), (-2.5 * (ln f2 / ln 10)).
  repeat split.
  - apply mag_diff_pos; lra.
  - apply mag_diff_pos; lra.
  - now apply mag_diff_decreasing.
Qed.

Lemma mag_diff_strictly_decreasing_witness :
  0 < 1 /\ 1 < 10 /\
  exists m1 m2 : R,
    mag_diff 1 = Some m1 /\ mag_diff 10 = Some m2 /\ m2 < m1.
Proof.
  split; [lra |]. split; [lra |].
  apply (mag_diff_strictly_decreasing 1 10); lra.
Defined.

(** C9: [mag_diff] is undefined exactly on arguments [<= 0], and
    [convert_params] hands its three magnitude results over untouched: the
    value, the upper and the lower bound are undefined exactly when [f],
    [f + sigma*ef], respectively [f - sigma*ef], is [<= 0]. *)
Theorem mag_diff_undefined_iff_nonpositive :
  (forall u : R, mag_diff u = None <-> u <= 0) /\
  (forall x y f ex ey ef sigma : R,
     let r := convert_params x y f ex ey ef sigma in
     (dm r = None <-> f <= 0) /\
     (dm_upper r = None <-> f + sigma * ef <= 0) /\
     (dm_lower r = None <-> f - sigma * ef <= 0)).
Proof.
  split.
  - intros u. apply mag_diff_none_iff.
  - intros x y f ex ey ef sigma r. subst r.
    rewrite dm_value, dm_upper_value, dm_lower_value.
    rewrite !mag_diff_none_iff.
    replace (ef * sigma) with (sigma * ef) by ring.
    repeat split; intros; assumption.
Qed.

(** ** Properties of [convert_params] *)

(** C4: away from the origin [convert_params] returns the separation
    [sqrt(x^2 + y^2)] and the separation uncertainty
    [sigma * sqrt((x/separation*ex)^2 + (y/separation*ey)^2)]. *)
Theorem convert_params_separation (x y f ex ey ef sigma : R) :
  (x, y) <> (0, 0) ->
  sep (convert_params x y f ex ey ef sigma) = Some (Spec.separation x y) /\
  sep_unc (convert_params x y f ex ey ef sigma) =
    Some (Spec.separation_unc x y ex ey sigma).
Proof.
  intros H. apply pair_neq_origin in H. split.
  - apply sep_value.
  - rewrite sep_unc_value by exact H.
    unfold Spec.separation_unc, Spec.separation. f_equal. ring.
Qed.

Lemma convert_params_separation_witness :
  (3, 4) <> (0, 0) /\
  sep (convert_params 3 4 1 1 1 0 1) = Some (Spec.separation 3 4) /\
  sep_unc (convert_params 3 4 1 1 1 0 1) =
    Some (Spec.separation_unc 3 4 1 1 1).
Proof.
  assert (H : (3, 4) <> (0, 0)) by (intros E; injection E; lra).
  split; [exact H |].
  apply (convert_params_separation 3 4 1 1 1 0 1 H).
Defined.




(** C1, as documented, fails: the position-angle uncertainty that
    [convert_params] returns is not [sigma * sqrt(...)].  At
    [x = 1, y = 0, ex = 0, ey = 1, sigma = 1] the documented formula gives
    1 whereas the code returns [180 / PI]. *)
Lemma pa_unc_documented_formula_fails :
  pa_unc (convert_params 1 0 1 0 1 0 1) <> Some (Spec.pa_unc 1 0 0 1 1).
Proof.
  rewrite pa_unc_value by (left; lra).
  unfold Spec.pa_unc, Spec.separation, Np.rad2deg_R.
  replace (1 ^ 2 + 0 ^ 2) with 1 by ring. rewrite sqrt_1.
  replace ((0 / 1 ^ 2 * 0) ^ 2 + (- (1) / 1 ^ 2 * 1) ^ 2) with 1 by field.
  rewrite sqrt_1. intros E. injection E as E.
  pose proof PI_RGT_0 as Hpi. pose proof PI_4 as H4.
  assert (E' : 180 = PI).
  { apply Rmult_eq_reg_r with (/ PI); [| apply Rinv_neq_0_compat; lra].
    rewrite Rinv_r by lra. unfold Rdiv in E. lra. }
  lra.
Qed.

(** C1, amended: away from the origin the position-angle uncertainty that
    [convert_params] returns is the documented expression
    [sigma * sqrt((y/separation^2*ex)^2 + (-x/separation^2*ey)^2)]
    converted from radians to degrees, that is multiplied by [180 / PI]. *)
Theorem convert_params_pa_unc (x y f ex ey ef sigma : R) :
  (x, y) <> (0, 0) ->
  pa_unc (convert_params x y f ex ey ef sigma) =
    Some (180 / PI * Spec.pa_unc x y ex ey sigma).
Proof.
  intros H. apply pair_neq_origin in H.
  rewrite pa_unc_value by exact H.
  unfold Spec.pa_unc, Spec.separation, Np.rad2deg_R. f_equal. ring.
Qed.

Lemma convert_params_pa_unc_witness :
  (3, 4) <> (0, 0) /\
  pa_unc (convert_params 3 4 1 1 1 0 1) =
    Some (180 / PI * Spec.pa_unc 3 4 1 1 1).
Proof.
  assert (H : (3, 4) <> (0, 0)) by (intros E; injection E; lra).
  split; [exact H |].
  apply (convert_params_pa_unc 3 4 1 1 1 0 1 H).
Defined.

(** C7: for [x = 0] and [y > 0] the returned position angle is exactly
    360 degrees: [atan2(0, y)] is 0 and the offset of 360 is added. *)
Theorem convert_params_pa_due_north (x y f ex ey ef sigma : R) :
  x = 0 -> 0 < y ->
  pa (convert_params x y f ex ey ef sigma) = Some 360.
Proof.
  intros Hx Hy. subst x. rewrite pa_value.
  rewrite atan2_first_quadrant by exact Hy.
  replace (0 / y) with 0 by (field; lra).
  rewrite atan_0. unfold Np.rad2deg_R. f_equal. ring.
Qed.

Lemma convert_params_pa_due_north_witness :
  0 = 0 /\ 0 < 2 /\
  pa (convert_params 0 2 1 1 1 0 1) = Some 360.
Proof.
  split; [reflexivity |]. split; [lra |].
  apply (convert_params_pa_due_north 0 2 1 1 1 0 1); [reflexivity | lra].
Defined.

(** C5: round trip.  For a separation [s > 0] and an angle [theta] (in
    radians, as [sin] and [cos] take it), the offsets [x = s*sin(theta)],
    [y = s*cos(theta)] are converted back to the separation [s] and to a
    position angle congruent modulo 360 to [theta] expressed in degrees. *)
Theorem convert_params_round_trip (s theta f ex ey ef sigma : R) :
  0 < s ->
  let r := convert_params (s * sin theta)%R (s * cos theta)%R f ex ey ef sigma in
  sep r = Some s /\
  exists k : Z, pa r = Some (Np.rad2deg_R theta + 360 * IZR k).
Proof.
  intros Hs r. subst r. split.
  - rewrite sep_value. f_equal.
    pose proof (sin2_cos2 theta) as E. unfold Rsqr in E.
    replace ((s * sin theta) ^ 2 + (s * cos theta) ^ 2)
      with (s ^ 2 * (sin theta * sin theta + cos theta * cos theta)) by ring.
    rewrite E, Rmult_1_r. apply sqrt_pow2. lra.
  - rewrite pa_value.
    destruct (atan2_polar s theta Hs) as [k Hk].
    exists (k + 1)%Z. rewrite Hk, plus_IZR.
    unfold Np.rad2deg_R. f_equal.
    pose proof PI_RGT_0. field. lra.
Qed.

Lemma convert_params_round_trip_witness :
  0 < 2 /\
  let r := convert_params (2 * sin 1)%R (2 * cos 1)%R 1 1 1 0 1 in
  sep r = Some 2 /\
  exists k : Z, pa r = Some (Np.rad2deg_R 1 + 360 * IZR k).
Proof.
  split; [lra |].
  apply (convert_params_round_trip 2 1 1 1 1 0 1). lra.
Defined.

(** C10: bracketing.  For [f > 0], [ef > 0], [sigma > 0] with
    [f - sigma*ef > 0] all three magnitude results are defined and
    [dm_upper < dm < dm_lower]: the bound computed from [f + sigma*ef] is
    the numerically smaller one.  The bracket is asymmetric: [dm] is
    strictly closer to [dm_upper] than to [dm_lower]. *)
Theorem convert_params_dm_bracket (x y f ex ey ef sigma : R) :
  0 < f -> 0 < ef -> 0 < sigma -> 0 < f - sigma * ef ->
  let r := convert_params x y f ex ey ef sigma in
  exists u m l : R,
    dm_upper r = Some u /\ dm r = Some m /\ dm_lower r = Some l /\
    u < m /\ m < l /\ m - u < l - m.
Proof.
  intros Hf Hef Hsig Hlow r. subst r.
  assert (Hprod : 0 < ef * sigma) by (apply Rmult_lt_0_compat; assumption).
  assert (Hlow' : 0 < f - ef * sigma) by lra.
  rewrite dm_value, dm_upper_value, dm_lower_value.
  rewrite !mag_diff_pos by lra.
  do 3 eexists. repeat split; try reflexivity.
  - apply mag_diff_decreasing; lra.
  - apply mag_diff_decreasing; lra.
  - apply mag_steps_asymmetric; assumption.
Qed.

Lemma convert_params_dm_bracket_witness :
  0 < 0.5 /\ 0 < 0.1 /\ 0 < 2 /\ 0 < 0.5 - 2 * 0.1 /\
  let r := convert_params 3 4 0.5 1 1 0.1 2 in
  exists u m l : R,
    dm_upper r = Some u /\ dm r = Some m /\ dm_lower r = Some l /\
    u < m /\ m < l /\ m - u < l - m.
Proof.
  repeat (split; [lra |]).
  apply (convert_params_dm_bracket 3 4 0.5 1 1 0.1 2); lra.
Defined.

(** ** The documented scenario *)

(** C2, as documented, fails: for [x = 258.7], [y = 107.3], [f = 0.024]
    the returned position angle is not within 100 degrees of 292.6, let
    alone approximately equal to it. *)
Lemma scenario_pa_not_292_6 :
  ~ approx 100 (pa (convert_params 258.7 107.3 0.024 0 0 0 1)) 292.6.
Proof.
  intros [p [E Hp]]. rewrite pa_value in E. injection E as E. subst p.
  rewrite atan2_first_quadrant in Hp by lra.
  pose proof atan_ratio_bounds as [Ha _].
  assert (Hd : 67 < Np.rad2deg_R (atan (258.7 / 107.3)) < 200).
  { apply rad2deg_enclosure; [lra | | lra].
    pose proof (atan_bound (258.7 / 107.3)) as [_ Hb].
    pose proof PI_bounds. lra. }
  pose proof (Rle_abs (360 + Np.rad2deg_R (atan (258.7 / 107.3)) - 292.6)).
  lra.
Qed.

(** C2, amended: for [x = 258.7], [y = 107.3], [f = 0.024] and any
    uncertainties and sigma, [convert_params] returns a separation within
    0.1 of 280.0 mas, a position angle within 0.1 of 427.5 degrees (not
    292.6), and a magnitude difference within 0.1 of 4.0 mag. *)
Theorem scenario_values (ex ey ef sigma : R) :
  let r := convert_params 258.7 107.3 0.024 ex ey ef sigma in
  approx 0.1 (sep r) 280.0 /\
  approx 0.1 (pa r) 427.5 /\
  approx 0.1 (dm r) 4.0.
Proof.
  intros r. subst r. repeat split.
  - eexists. split; [apply sep_value |].
    pose proof sep_scenario_bounds. apply Rabs_le. lra.
  - eexists. split; [apply pa_value |].
    rewrite atan2_first_quadrant by lra.
    pose proof atan_ratio_bounds as [Ha Hb].
    assert (Hd : 67.4 < Np.rad2deg_R (atan (258.7 / 107.3)) < 67.5)
      by (apply rad2deg_enclosure; lra).
    apply Rabs_le. lra.
  - eexists. split; [rewrite dm_value; apply mag_diff_pos; lra |].
    pose proof log_scenario_bounds as [Hl Hu]. pose proof ln_10_pos as H10.
    assert (E : ln 0.024 / ln 10 * ln 10 = ln 0.024) by (field; lra).
    set (q := ln 0.024 / ln 10) in *.
    assert (-1.64 < q < -1.6) by (split; nra).
    apply Rabs_le. lra.
Qed.

(** ** Further properties of [mag_diff] and [convert_params] *)

Section MagnitudeAlgebra.

Lemma ln_100 : ln 100 = 2 * ln 10.
Proof.
  replace 100 with (10 * 10) by lra. rewrite ln_mult by lra. ring.
Qed.

(** X1: [mag_diff] turns a product of positive flux ratios into the sum of
    the magnitude differences; in particular a flux ratio 100 times larger
    is exactly 5 magnitudes less. *)
Theorem mag_diff_product (f g : R) :
  0 < f -> 0 < g ->
  exists a b : R,
    mag_diff f = Some a /\ mag_diff g = Some b /\
    mag_diff (f * g)%R = Some (a + b) /\
    mag_diff (100 * f)%R = Some (a - 5).
Proof.
  intros Hf Hg. pose proof ln_10_pos as H10. unfold Np.fin.
  exists (-2.5 * (ln f / ln 10)), (-2.5 * (ln g / ln 10)).
  rewrite !mag_diff_pos by nra.
  rewrite !ln_mult by lra. rewrite ln_100.
  repeat split; try reflexivity; f_equal.
  - field. lra.
  - replace ((2 * ln 10 + ln f) / ln 10) with (2 + ln f / ln 10)
      by (field; lra).
    lra.
Qed.

Lemma mag_diff_product_witness :
  0 < 2 /\ 0 < 3 /\
  exists a b : R,
    mag_diff 2 = Some a /\ mag_diff 3 = Some b /\
    mag_diff (2 * 3)%R = Some (a + b) /\
    mag_diff (100 * 2)%R = Some (a - 5).
Proof.
  split; [lra |]. split; [lra |].
  apply (mag_diff_product 2 3); lra.
Defined.

(** X2: round trip with the flux ratio of a magnitude difference: for every
    [m], [mag_diff (10 ^ (-0.4 * m))] is [m]. *)
Theorem mag_diff_of_flux_ratio (m : R) :
  mag_diff (Rpower 10 (-0.4 * m)) = Some m.
Proof.
  pose proof ln_10_pos as H10. unfold Np.fin, Rpower.
  rewrite mag_diff_pos by apply exp_pos.
  rewrite ln_exp. f_equal.
  replace (-0.4 * m * ln 10 / ln 10) with (-0.4 * m) by (field; lra).
  lra.
Qed.

(** X3: a companion fainter than the primary ([0 < f < 1]) has a positive
    magnitude difference, a brighter one ([f > 1]) a negative one. *)
Theorem mag_diff_sign (f : R) :
  0 < f ->
  exists m : R,
    mag_diff f = Some m /\ (0 < m <-> f < 1) /\ (m < 0 <-> 1 < f).
Proof.
  intros Hf. pose proof ln_10_pos as H10. unfold Np.fin.
  exists (-2.5 * (ln f / ln 10)). split; [now apply mag_diff_pos |].
  assert (E : ln f / ln 10 * ln 10 = ln f) by (field; lra).
  set (q := ln f / ln 10) in *.
  assert (Hlt : f < 1 -> ln f < 0) by (intros; rewrite <- ln_1; now apply ln_increasing).
  assert (Hgt : 1 < f -> 0 < ln f) by (intros; rewrite <- ln_1; apply ln_increasing; lra).
  assert (Heq : f = 1 -> ln f = 0) by (intros ->; apply ln_1).
  split; split; intros H.
  - destruct (Rlt_dec f 1) as [? | Hn]; [assumption | exfalso].
    destruct (Req_dec_T f 1) as [E1 | E1]; [specialize (Heq E1) | assert (1 < f) by lra; specialize (Hgt H0)]; nra.
  - specialize (Hlt H). nra.
  - destruct (Rlt_dec 1 f) as [? | Hn]; [assumption | exfalso].
    destruct (Req_dec_T f 1) as [E1 | E1]; [specialize (Heq E1) | assert (f < 1) by lra; specialize (Hlt H0)]; nra.
  - specialize (Hgt H). nra.
Qed.

Lemma mag_diff_sign_witness :
  0 < 0.5 /\
  exists m : R,
    mag_diff 0.5 = Some m /\ (0 < m <-> 0.5 < 1) /\ (m < 0 <-> 1 < 0.5).
Proof.
  split; [lra |]. apply (mag_diff_sign 0.5). lra.
Defined.

End MagnitudeAlgebra.

Section PositionAngle.

Lemma atan_pos (t : R) : 0 < t -> 0 < atan t.
Proof. intros H. rewrite <- atan_0. now apply atan_increasing. Qed.

Lemma atan_neg (t : R) : t < 0 -> atan t < 0.
Proof. intros H. rewrite <- atan_0. now apply atan_increasing. Qed.

Lemma quotient_sign (a b : R) :
  b <> 0 -> a / b * b = a.
Proof. intros H. field. exact H. Qed.

Lemma atan2_pos (a b : R) : 0 < a -> 0 < Np.atan2 a b < PI.
Proof.
  intros Ha. pose proof PI_RGT_0 as Hpi. unfold Np.atan2.
  pose proof (atan_bound (a / b)) as [Hlo Hhi].
  destruct (Rlt_dec 0 b) as [Hb | Hb].
  - assert (0 < a / b) by (apply Rdiv_lt_0_compat; assumption).
    pose proof (atan_pos _ H). lra.
  - destruct (Rlt_dec b 0) as [Hb' | Hb'].
    + destruct (Rle_dec 0 a); [| lra].
      assert (a / b < 0).
      { pose proof (quotient_sign a b ltac:(lra)). nra. }
      pose proof (atan_neg _ H). lra.
    + destruct (Rlt_dec 0 a); lra.
Qed.

Lemma atan2_neg (a b : R) : a < 0 -> - PI < Np.atan2 a b < 0.
Proof.
  intros Ha. pose proof PI_RGT_0 as Hpi. unfold Np.atan2.
  pose proof (atan_bound (a / b)) as [Hlo Hhi].
  destruct (Rlt_dec 0 b) as [Hb | Hb].
  - assert (a / b < 0).
    { pose proof (quotient_sign a b ltac:(lra)). nra. }
    pose proof (atan_neg _ H). lra.
  - destruct (Rlt_dec b 0) as [Hb' | Hb'].
    + destruct (Rle_dec 0 a); [lra |].
      assert (0 < a / b).
      { pose proof (quotient_sign a b ltac:(lra)). nra. }
      pose proof (atan_pos _ H). lra.
    + destruct (Rlt_dec 0 a); [lra |]. destruct (Rlt_dec a 0); lra.
Qed.

Lemma atan2_zero (b : R) :
  (0 <= b -> Np.atan2 0 b = 0) /\ (b < 0 -> Np.atan2 0 b = PI).
Proof.
  unfold Np.atan2. split; intros Hb.
  - destruct (Rlt_dec 0 b).
    + replace (0 / b) with 0 by (field; lra). apply atan_0.
    + destruct (Rlt_dec b 0); [lra |].
      destruct (Rlt_dec 0 0); [lra |]. destruct (Rlt_dec 0 0); [lra | reflexivity].
  - destruct (Rlt_dec 0 b); [lra |]. destruct (Rlt_dec b 0); [| lra].
    destruct (Rle_dec 0 0); [| lra].
    replace (0 / b) with 0 by (field; lra). rewrite atan_0. ring.
Qed.

Lemma rad2deg_PI : Np.rad2deg_R PI = 180.
Proof. unfold Np.rad2deg_R. pose proof PI_RGT_0. field. lra. Qed.

Lemma rad2deg_increasing (u v : R) :
  u < v -> Np.rad2deg_R u < Np.rad2deg_R v.
Proof.
  intros H. unfold Np.rad2deg_R. apply Rmult_lt_compat_r; [| exact H].
  pose proof PI_RGT_0. apply Rdiv_lt_0_compat; lra.
Qed.

Lemma rad2deg_0 : Np.rad2deg_R 0 = 0.
Proof. unfold Np.rad2deg_R. ring. Qed.

Lemma rad2deg_opp (u : R) : Np.rad2deg_R (- u) = - Np.rad2deg_R u.
Proof. unfold Np.rad2deg_R. ring. Qed.

(** X4: the position angle is never brought back into [0, 360): it lies in
    (360, 540) for an offset with [x > 0], in (180, 360) for [x < 0], and
    is 360 or 540 for [x = 0] (540 when [y < 0]). *)
Theorem convert_params_pa_range (x y f ex ey ef sigma : R) :
  exists p : R,
    pa (convert_params x y f ex ey ef sigma) = Some p /\
    (0 < x -> 360 < p < 540) /\
    (x < 0 -> 180 < p < 360) /\
    (x = 0 -> 0 <= y -> p = 360) /\
    (x = 0 -> y < 0 -> p = 540).
Proof.
  eexists. split; [apply pa_value |].
  pose proof rad2deg_PI as EPI. pose proof rad2deg_0 as E0.
  repeat split.
  - destruct (atan2_pos x y H) as [H1 _].
    apply rad2deg_increasing in H1. lra.
  - destruct (atan2_pos x y H) as [_ H2].
    apply rad2deg_increasing in H2. lra.
  - destruct (atan2_neg x y H) as [H1 _].
    apply rad2deg_increasing in H1. rewrite rad2deg_opp in H1. lra.
  - destruct (atan2_neg x y H) as [_ H2].
    apply rad2deg_increasing in H2. lra.
  - intros -> Hy. destruct (atan2_zero y) as [Hz _]. rewrite (Hz Hy). lra.
  - intros -> Hy. destruct (atan2_zero y) as [_ Hz]. rewrite (Hz Hy). lra.
Qed.

(** X5: scaling the offset by a positive factor scales the separation by
    that factor and leaves the position angle unchanged. *)
Theorem convert_params_scaling (k x y f ex ey ef sigma : R) :
  0 < k ->
  exists s p : R,
    sep (convert_params x y f ex ey ef sigma) = Some s /\
    pa (convert_params x y f ex ey ef sigma) = Some p /\
    sep (convert_params (k * x)%R (k * y)%R f ex ey ef sigma) = Some (k * s) /\
    pa (convert_params (k * x)%R (k * y)%R f ex ey ef sigma) = Some p.
Proof.
  intros Hk. do 2 eexists.
  split; [apply sep_value |]. split; [apply pa_value |]. split.
  - rewrite sep_value. f_equal.
    replace ((k * x) ^ 2 + (k * y) ^ 2) with (k ^ 2 * (x ^ 2 + y ^ 2)) by ring.
    rewrite sqrt_mult by (try apply sum_sq_nonneg; nra).
    rewrite sqrt_pow2 by lra. reflexivity.
  - rewrite pa_value. now rewrite atan2_scale.
Qed.

Lemma convert_params_scaling_witness :
  0 < 2 /\
  exists s p : R,
    sep (convert_params 3 4 1 1 1 0 1) = Some s /\
    pa (convert_params 3 4 1 1 1 0 1) = Some p /\
    sep (convert_params (2 * 3)%R (2 * 4)%R 1 1 1 0 1) = Some (2 * s) /\
    pa (convert_params (2 * 3)%R (2 * 4)%R 1 1 1 0 1) = Some p.
Proof.
  split; [lra |]. apply (convert_params_scaling 2 3 4 1 1 1 0 1). lra.
Defined.

End PositionAngle.

Section ErrorBars.

(** X6: the magnitude error bars are asymmetric.  Under the hypotheses of
    the bracketing, the distance from [dm] down to [dm_upper] is strictly
    shorter than the distance from [dm] up to [dm_lower]. *)
Theorem convert_params_dm_asymmetric (x y f ex ey ef sigma : R) :
  0 < ef -> 0 < sigma -> 0 < f - sigma * ef ->
  let r := convert_params x y f ex ey ef sigma in
  exists u m l : R,
    dm_upper r = Some u /\ dm r = Some m /\ dm_lower r = Some l /\
    m - u < l - m.
Proof.
  intros Hef Hsig Hlow r. subst r.
  assert (Hprod : 0 < ef * sigma) by (apply Rmult_lt_0_compat; assumption).
  assert (Hlow' : 0 < f - ef * sigma) by lra.
  rewrite dm_value, dm_upper_value, dm_lower_value.
  rewrite !mag_diff_pos by lra.
  do 3 eexists. repeat split; try reflexivity.
  pose proof ln_10_pos as H10.
  assert (Hln : ln (f + ef * sigma) + ln (f - ef * sigma) < ln f + ln f).
  { rewrite <- !ln_mult by lra. apply ln_increasing; nra. }
  set (a := ln (f + ef * sigma)) in *. set (b := ln (f - ef * sigma)) in *.
  set (c := ln f) in *.
  assert (Hq : (a + b) / ln 10 < (c + c) / ln 10).
  { unfold Rdiv. apply Rmult_lt_compat_r; [now apply Rinv_0_lt_compat | exact Hln]. }
  replace ((a + b) / ln 10) with (a / ln 10 + b / ln 10) in Hq by (field; lra).
  replace ((c + c) / ln 10) with (c / ln 10 + c / ln 10) in Hq by (field; lra).
  lra.
Qed.

Lemma convert_params_dm_asymmetric_witness :
  0 < 0.1 /\ 0 < 2 /\ 0 < 0.5 - 2 * 0.1 /\
  let r := convert_params 3 4 0.5 1 1 0.1 2 in
  exists u m l : R,
    dm_upper r = Some u /\ dm r = Some m /\ dm_lower r = Some l /\
    m - u < l - m.
Proof.
  repeat (split; [lra |]).
  apply (convert_params_dm_asymmetric 3 4 0.5 1 1 0.1 2); lra.
Defined.

(** X7: both propagated uncertainties are proportional to [sigma]: the
    value returned for [sigma] is [sigma] times the value returned for
    [sigma = 1], while separation, position angle and magnitude difference
    do not depend on [sigma]. *)
Theorem convert_params_sigma_linear (x y f ex ey ef sigma : R) :
  (x, y) <> (0, 0) ->
  let r1 := convert_params x y f ex ey ef 1 in
  let r := convert_params x y f ex ey ef sigma in
  exists su pu : R,
    sep_unc r1 = Some su /\ pa_unc r1 = Some pu /\
    sep_unc r = Some (sigma * su) /\ pa_unc r = Some (sigma * pu) /\
    sep r = sep r1 /\ pa r = pa r1 /\ dm r = dm r1.
Proof.
  intros H r1 r. subst r1 r. apply pair_neq_origin in H.
  rewrite !sep_unc_value, !pa_unc_value, !sep_value by exact H.
  do 2 eexists. split; [reflexivity |]. split; [reflexivity |].
  repeat split; f_equal; ring.
Qed.

Lemma convert_params_sigma_linear_witness :
  (3, 4) <> (0, 0) /\
  let r1 := convert_params 3 4 1 1 1 0 1 in
  let r := convert_params 3 4 1 1 1 0 2 in
  exists su pu : R,
    sep_unc r1 = Some su /\ pa_unc r1 = Some pu /\
    sep_unc r = Some (2 * su) /\ pa_unc r = Some (2 * pu) /\
    sep r = sep r1 /\ pa r = pa r1 /\ dm r = dm r1.
Proof.
  assert (H : (3, 4) <> (0, 0)) by (intros E; injection E; lra).
  split; [exact H |].
  apply (convert_params_sigma_linear 3 4 1 1 1 0 2 H).
Defined.

(** X8: with the same uncertainty [e >= 0] on both offsets, the separation
    uncertainty is [e * sigma] whatever the direction, and the
    position-angle uncertainty is [e / separation] radians, in degrees,
    times [sigma]. *)
Theorem convert_params_isotropic (x y f e ef sigma : R) :
  (x, y) <> (0, 0) -> 0 <= e ->
  let r := convert_params x y f e e ef sigma in
  sep_unc r = Some (e * sigma) /\
  pa_unc r = Some (Np.rad2deg_R (e / sqrt (x ^ 2 + y ^ 2)) * sigma).
Proof.
  intros H He r. subst r. apply pair_neq_origin in H.
  pose proof (sum_sq_pos x y H) as Hpos.
  pose proof (sqrt_lt_R0 _ Hpos) as Hs.
  assert (Hsq : sqrt (x ^ 2 + y ^ 2) ^ 2 = x ^ 2 + y ^ 2).
  { replace (sqrt (x ^ 2 + y ^ 2) ^ 2)
      with (sqrt (x ^ 2 + y ^ 2) * sqrt (x ^ 2 + y ^ 2)) by ring.
    apply sqrt_sqrt. lra. }
  set (s := sqrt (x ^ 2 + y ^ 2)) in *.
  rewrite sep_unc_value, pa_unc_value by exact H. fold s. split.
  - f_equal. f_equal.
    replace ((x / s * e) ^ 2 + (y / s * e) ^ 2) with (e ^ 2).
    + apply sqrt_pow2. exact He.
    + replace ((x / s * e) ^ 2 + (y / s * e) ^ 2)
        with (e ^ 2 * ((x ^ 2 + y ^ 2) / s ^ 2)) by (field; lra).
      rewrite Hsq. field. lra.
  - f_equal. f_equal. f_equal.
    replace ((y / s ^ 2 * e) ^ 2 + (- x / s ^ 2 * e) ^ 2) with ((e / s) ^ 2).
    + apply sqrt_pow2. apply Rmult_le_pos; [exact He |].
      apply Rlt_le, Rinv_0_lt_compat, Hs.
    + replace ((y / s ^ 2 * e) ^ 2 + (- x / s ^ 2 * e) ^ 2)
        with (e ^ 2 * (x ^ 2 + y ^ 2) / (s ^ 2) ^ 2) by (field; lra).
      rewrite <- Hsq. field. lra.
Qed.

Lemma convert_params_isotropic_witness :
  (3, 4) <> (0, 0) /\ 0 <= 2 /\
  let r := convert_params 3 4 1 2 2 0 1 in
  sep_unc r = Some (2 * 1) /\
  pa_unc r = Some (Np.rad2deg_R (2 / sqrt (3 ^ 2 + 4 ^ 2)) * 1).
Proof.
  assert (H : (3, 4) <> (0, 0)) by (intros E; injection E; lra).
  split; [exact H |]. split; [lra |].
  apply (convert_params_isotropic 3 4 1 2 0 1 H). lra.
Defined.

End ErrorBars.

(** ** The cell that calls [convert_params] *)

Section BestFitCell.

Lemma index_at_0 {A : Type} (a : A) (l : list A) :
  Py.index (a :: l) 0 = Some a.
Proof. reflexivity. Qed.

Lemma index_at_1 {A : Type} (a b : A) (l : list A) :
  Py.index (a :: b :: l) 1 = Some b.
Proof. reflexivity. Qed.

Lemma index_at_2 {A : Type} (a b c : A) (l : list A) :
  Py.index (a :: b :: c :: l) 2 = Some c.
Proof. reflexivity. Qed.

Lemma index_nil {A : Type} (i : Z) : Py.index (@nil A) i = None.
Proof.
  unfold Py.index. cbn [List.length Z.of_nat].
  destruct (0 <=? i)%Z eqn:E.
  - now destruct (Z.to_nat i).
  - destruct (- 0 <=? i)%Z eqn:E'; [| reflexivity].
    apply Z.leb_gt in E. apply Z.leb_le in E'. lia.
Qed.

Lemma index_short_1 {A : Type} (a : A) : Py.index [a] 1 = None.
Proof. reflexivity. Qed.

Lemma index_short_2a {A : Type} (a : A) : Py.index [a] 2 = None.
Proof. reflexivity. Qed.

Lemma index_short_2b {A : Type} (a b : A) : Py.index [a; b] 2 = None.
Proof. reflexivity. Qed.

Lemma dm_unc_finite (d u l : R) :
  dm_unc (Some d) (Some u) (Some l) = Some ((l - u) / 2).
Proof.
  unfold dm_unc, Np.mean. cbn [fold_left List.length Np.add Np.sub Np.lift2 Np.fin].
  rewrite np_div_nonzero by (simpl; lra). f_equal. simpl. field.
Qed.

Lemma dm_unc_undefined (d : R) (u l : Np.scalar) :
  u = None \/ l = None -> dm_unc (Some d) u l = None.
Proof.
  intros [-> | ->]; unfold dm_unc, Np.mean; [destruct l | destruct u];
    reflexivity.
Qed.

Lemma dm_unc_any_dm (d d' : R) (u l : Np.scalar) :
  dm_unc (Some d) u l = dm_unc (Some d') u l.
Proof.
  destruct u as [u |], l as [l |].
  - now rewrite !dm_unc_finite.
  - rewrite !dm_unc_undefined; auto.
  - rewrite !dm_unc_undefined; auto.
  - rewrite !dm_unc_undefined; auto.
Qed.

(** X9: the cell averages [dm-dm_upper] and [dm_lower-dm] with the
    notebook-level [dm] (the expected value), not the fitted one; the
    result does not depend on that value: any two finite values of [dm]
    give the same outcome. *)
Theorem best_fit_cell_ignores_dm (d d' : R) (p dp : list Np.scalar) :
  best_fit_cell d p dp = best_fit_cell d' p dp.
Proof.
  unfold best_fit_cell.
  destruct (Py.index p 1), (Py.index dp 1), (Py.index p 2), (Py.index dp 2),
    (Py.index p 0), (Py.index dp 0); try reflexivity.
  unfold Np.fin. now rewrite (dm_unc_any_dm d d').
Qed.

(** X10: on a fit with flux ratio [f], its uncertainty [ef > 0] and
    [f - ef > 0], the cell returns the conversion at [sigma = 1] and, as
    symmetric uncertainty, half the distance between the two magnitude
    bounds, which is positive. *)
Theorem best_fit_cell_value (d f x y ef ex ey : R) (prest dprest : list Np.scalar) :
  0 < ef -> 0 < f - ef ->
  exists u l : R,
    let r := convert_params x y f ex ey ef 1 in
    dm_upper r = Some u /\ dm_lower r = Some l /\ 0 < (l - u) / 2 /\
    best_fit_cell d (Np.fin f :: Np.fin x :: Np.fin y :: prest)
                    (Np.fin ef :: Np.fin ex :: Np.fin ey :: dprest)
    = Some (r, Some ((l - u) / 2)).
Proof.
  intros Hef Hlow.
  exists (-2.5 * (ln (f + ef * 1) / ln 10)), (-2.5 * (ln (f - ef * 1) / ln 10)).
  cbv zeta.
  assert (Hu : dm_upper (convert_params x y f ex ey ef 1)
               = Some (-2.5 * (ln (f + ef * 1) / ln 10))).
  { rewrite dm_upper_value. apply mag_diff_pos. lra. }
  assert (Hl : dm_lower (convert_params x y f ex ey ef 1)
               = Some (-2.5 * (ln (f - ef * 1) / ln 10))).
  { rewrite dm_lower_value. apply mag_diff_pos. lra. }
  split; [exact Hu |]. split; [exact Hl |]. split.
  - assert (-2.5 * (ln (f + ef * 1) / ln 10) < -2.5 * (ln (f - ef * 1) / ln 10))
      by (apply mag_diff_decreasing; lra).
    lra.
  - unfold best_fit_cell. rewrite !index_at_0, !index_at_1, !index_at_2.
    cbv zeta. unfold Np.fin in *. rewrite Hu, Hl, dm_unc_finite. reflexivity.
Qed.

Lemma best_fit_cell_value_witness :
  0 < 0.1 /\ 0 < 0.5 - 0.1 /\
  exists u l : R,
    let r := convert_params 3 4 0.5 1 1 0.1 1 in
    dm_upper r = Some u /\ dm_lower r = Some l /\ 0 < (l - u) / 2 /\
    best_fit_cell 4.2 (Np.fin 0.5 :: Np.fin 3 :: Np.fin 4 :: [])
                      (Np.fin 0.1 :: Np.fin 1 :: Np.fin 1 :: [])
    = Some (r, Some ((l - u) / 2)).
Proof.
  split; [lra |]. split; [lra |].
  apply (best_fit_cell_value 4.2 0.5 3 4 0.1 1 1 [] []); lra.
Defined.

(** X11: the cell fails with an IndexError exactly when [fit["p"]] or
    [fit["dp"]] has fewer than three entries. *)
Theorem best_fit_cell_index_error (d : Np.scalar) (p dp : list Np.scalar) :
  best_fit_cell d p dp = None <->
  (List.length p < 3)%nat \/ (List.length dp < 3)%nat.
Proof.
  unfold best_fit_cell.
  destruct p as [| p0 [| p1 [| p2 p']]]; destruct dp as [| q0 [| q1 [| q2 q']]];
    rewrite ?index_at_0, ?index_at_1, ?index_at_2, ?index_nil,
      ?index_short_1, ?index_short_2a, ?index_short_2b;
    cbn [List.length]; split; intros H;
    try discriminate H; try reflexivity; try lia.
Qed.

End BestFitCell.

(** ** Baselines and triangles *)

Section Baselines.

Lemma baseline_length_value (p q : hole_pos) :
  baseline_length p q =
  Some (sqrt ((hole_x q - hole_x p) ^ 2 + (hole_y q - hole_y p) ^ 2)).
Proof.
  unfold baseline_length. np_arith.
  rewrite np_sqrt_nonneg by apply sum_sq_nonneg.
  cbn [Np.abs Np.lift1]. f_equal. apply Rabs_pos_eq, sqrt_pos.
Qed.

Lemma sum_sq_zero (a b : R) : a ^ 2 + b ^ 2 = 0 -> a = 0 /\ b = 0.
Proof.
  intros H. pose proof (pow2_ge_0 a). pose proof (pow2_ge_0 b).
  split; apply Rsqr_0_uniq; unfold Rsqr; lra.
Qed.

Lemma cauchy_schwarz_2 (a b c d u v : R) :
  0 <= u -> 0 <= v -> u * u = a ^ 2 + b ^ 2 -> v * v = c ^ 2 + d ^ 2 ->
  a * c + b * d <= u * v.
Proof.
  intros Hu Hv Eu Ev.
  assert (Hsq : (a * c + b * d) ^ 2 <= (u * v) ^ 2).
  { replace ((u * v) ^ 2) with ((u * u) * (v * v)) by ring.
    rewrite Eu, Ev. pose proof (pow2_ge_0 (a * d - b * c)). nra. }
  destruct (Rle_dec (a * c + b * d) (u * v)) as [? | Hn]; [assumption |].
  exfalso. assert (0 <= u * v) by (apply Rmult_le_pos; assumption). nra.
Qed.

Lemma dist_triangle (a b c d : R) :
  sqrt ((a + c) ^ 2 + (b + d) ^ 2)
  <= sqrt (a ^ 2 + b ^ 2) + sqrt (c ^ 2 + d ^ 2).
Proof.
  pose proof (sqrt_pos (a ^ 2 + b ^ 2)) as Hu.
  pose proof (sqrt_pos (c ^ 2 + d ^ 2)) as Hv.
  pose proof (sqrt_sqrt _ (sum_sq_nonneg a b)) as Eu.
  pose proof (sqrt_sqrt _ (sum_sq_nonneg c d)) as Ev.
  set (u := sqrt (a ^ 2 + b ^ 2)) in *. set (v := sqrt (c ^ 2 + d ^ 2)) in *.
  pose proof (cauchy_schwarz_2 a b c d u v Hu Hv Eu Ev) as Hcs.
  rewrite <- (sqrt_pow2 (u + v)) by lra.
  apply sqrt_le_1; [apply sum_sq_nonneg | apply pow2_ge_0 | nra].
Qed.

(** X12: the baseline length is a distance between the projected hole
    positions: it is finite and non-negative (the [np.abs] changes
    nothing), symmetric in the two holes, zero exactly when both holes
    share their x and y, and satisfies the triangle inequality. *)
Theorem baseline_length_metric (p q r : hole_pos) :
  exists a b c : R,
    baseline_length p q = Some a /\ baseline_length q r = Some b /\
    baseline_length p r = Some c /\
    baseline_length q p = Some a /\
    0 <= a /\
    (a = 0 <-> hole_x p = hole_x q /\ hole_y p = hole_y q) /\
    c <= a + b.
Proof.
  do 3 eexists. rewrite !baseline_length_value.
  split; [reflexivity |]. split; [reflexivity |]. split; [reflexivity |].
  split; [f_equal; f_equal; ring |]. split; [apply sqrt_pos |]. split.
  - split.
    + intros H. apply sqrt_eq_0 in H; [| apply sum_sq_nonneg].
      apply sum_sq_zero in H. destruct H. split; lra.
    + intros [-> ->].
      replace ((hole_x q - hole_x q) ^ 2 + (hole_y q - hole_y q) ^ 2)
        with 0 by ring.
      apply sqrt_0.
  - replace (hole_x r - hole_x p)
      with ((hole_x q - hole_x p) + (hole_x r - hole_x q)) by ring.
    replace (hole_y r - hole_y p)
      with ((hole_y q - hole_y p) + (hole_y r - hole_y q)) by ring.
    apply dist_triangle.
Qed.

(** The loop [for x in xs: acc.append(body(x))]. *)
Lemma for_append_some {A B : Type} (body : A -> option B) (xs : list A) :
  forall acc ys,
    Forall2 (fun x y => body x = Some y) xs ys ->
    Py.for_append body xs acc = Some (acc ++ ys).
Proof.
  induction xs as [| x xs IH]; intros acc ys H; inversion H; subst; cbn.
  - now rewrite app_nil_r.
  - rewrite H2. rewrite (IH _ _ H4). now rewrite <- app_assoc.
Qed.

Lemma for_append_inv {A B : Type} (body : A -> option B) (xs : list A) :
  forall acc r,
    Py.for_append body xs acc = Some r ->
    exists ys, Forall2 (fun x y => body x = Some y) xs ys /\ r = acc ++ ys.
Proof.
  induction xs as [| x xs IH]; intros acc r H; cbn in H.
  - injection H as <-. exists []. split; [constructor | now rewrite app_nil_r].
  - destruct (body x) as [b |] eqn:E; [| discriminate].
    destruct (IH _ _ H) as [ys [HF ->]].
    exists (b :: ys). split; [now constructor | now rewrite <- app_assoc].
Qed.

Lemma for_append_none {A B : Type} (body : A -> option B) (xs : list A) :
  forall acc,
    Py.for_append body xs acc = None <-> Exists (fun x => body x = None) xs.
Proof.
  induction xs as [| x xs IH]; intros acc; cbn.
  - split; [discriminate | intros H; inversion H].
  - destruct (body x) as [b |] eqn:E.
    + rewrite IH. split; [now right |].
      intros H. inversion H; subst; [congruence | assumption].
    + split; [now left | reflexivity].
Qed.

(** An index is accepted exactly inside [-len .. len-1]. *)
Lemma index_defined_iff {A : Type} (l : list A) (i : Z) :
  Py.index l i <> None <->
  (- Z.of_nat (List.length l) <= i < Z.of_nat (List.length l))%Z.
Proof.
  unfold Py.index.
  destruct (0 <=? i)%Z eqn:E0.
  - apply Z.leb_le in E0. rewrite nth_error_Some. lia.
  - apply Z.leb_gt in E0.
    destruct (- Z.of_nat (List.length l) <=? i)%Z eqn:E1.
    + apply Z.leb_le in E1. rewrite nth_error_Some. lia.
    + apply Z.leb_gt in E1. split; [congruence | lia].
Qed.

(** A negative index names the same element as that index plus the
    length. *)
Lemma index_wraps {A : Type} (l : list A) (i : Z) :
  (- Z.of_nat (List.length l) <= i < 0)%Z ->
  Py.index l i = Py.index l (Z.of_nat (List.length l) + i).
Proof.
  intros H. unfold Py.index.
  destruct (0 <=? i)%Z eqn:E0; [apply Z.leb_le in E0; lia |].
  destruct (- Z.of_nat (List.length l) <=? i)%Z eqn:E1;
    [| apply Z.leb_gt in E1; lia].
  destruct (0 <=? Z.of_nat (List.length l) + i)%Z eqn:E2;
    [reflexivity | apply Z.leb_gt in E2; lia].
Qed.

Lemma baseline_of_defined_iff (hole_ctrs : list hole_pos) (bl : Z * Z) :
  baseline_of hole_ctrs bl <> None <->
  (- Z.of_nat (List.length hole_ctrs) < fst bl <= Z.of_nat (List.length hole_ctrs))%Z /\
  (- Z.of_nat (List.length hole_ctrs) < snd bl <= Z.of_nat (List.length hole_ctrs))%Z.
Proof.
  unfold baseline_of.
  pose proof (index_defined_iff hole_ctrs (fst bl - 1)) as H1.
  pose proof (index_defined_iff hole_ctrs (snd bl - 1)) as H2.
  destruct (Py.index hole_ctrs (fst bl - 1)), (Py.index hole_ctrs (snd bl - 1)).
  - split; [intros _ | discriminate].
    assert (Some h <> None) as G1 by discriminate.
    assert (Some h0 <> None) as G2 by discriminate.
    apply H1 in G1. apply H2 in G2. lia.
  - split; [congruence |]. intros [_ H]. exfalso.
    apply (proj2 H2); [lia | reflexivity].
  - split; [congruence |]. intros [H _]. exfalso.
    apply (proj2 H1); [lia | reflexivity].
  - split; [congruence |]. intros [H _]. exfalso.
    apply (proj2 H1); [lia | reflexivity].
Qed.

(** X13: the baseline loop completes exactly when every station index of
    every pair [s] satisfies [-n < s <= n], [n] being the number of holes;
    any other index ends the cell with an IndexError.  When it completes,
    it yields one finite, non-negative length per pair. *)
Theorem baselines_defined_iff (hole_ctrs : list hole_pos) (bl_idx : list (Z * Z)) :
  let n := Z.of_nat (List.length hole_ctrs) in
  (baselines hole_ctrs bl_idx <> None <->
   Forall (fun bl => (- n < fst bl <= n)%Z /\ (- n < snd bl <= n)%Z) bl_idx) /\
  (forall ls, baselines hole_ctrs bl_idx = Some ls ->
     List.length ls = List.length bl_idx /\
     Forall (fun l => exists d : R, l = Some d /\ 0 <= d) ls).
Proof.
  intros n. subst n. unfold baselines. split.
  - split.
    + intros H. apply Forall_forall. intros bl Hin.
      apply baseline_of_defined_iff. intros Hb. apply H.
      apply for_append_none. apply Exists_exists. now exists bl.
    + intros H Hnone. apply for_append_none in Hnone.
      apply Exists_exists in Hnone. destruct Hnone as [bl [Hin Hb]].
      rewrite Forall_forall in H.
      now apply (proj2 (baseline_of_defined_iff hole_ctrs bl) (H bl Hin)).
  - intros ls H. apply for_append_inv in H. destruct H as [ys [HF ->]].
    cbn [app]. split.
    + symmetry. eapply Forall2_length. exact HF.
    + clear -HF. induction HF as [| bl y bls ys Hy _ IH]; constructor; [| exact IH].
      unfold baseline_of in Hy.
      destruct (Py.index hole_ctrs (fst bl - 1)), (Py.index hole_ctrs (snd bl - 1));
        try discriminate.
      injection Hy as <-. rewrite baseline_length_value.
      eexists. split; [reflexivity | apply sqrt_pos].
Qed.

(** X14: a station index that is zero or negative is not rejected: an
    index [s] with [-n < s <= 0] silently designates the same hole as
    station [s + n], counting from the end of the hole table, and the pair
    gets a length whenever its other index is accepted. *)
Theorem baseline_of_wraps (hole_ctrs : list hole_pos) (s k : Z) :
  let n := Z.of_nat (List.length hole_ctrs) in
  (- n < s <= 0)%Z ->
  baseline_of hole_ctrs (s, k) = baseline_of hole_ctrs ((s + n)%Z, k) /\
  (baseline_of hole_ctrs (s, k) <> None <-> (- n < k <= n)%Z).
Proof.
  intros n H. subst n. split.
  - unfold baseline_of. cbn [fst snd].
    rewrite (index_wraps hole_ctrs (s - 1)) by lia.
    replace (Z.of_nat (List.length hole_ctrs) + (s - 1))%Z
      with (s + Z.of_nat (List.length hole_ctrs) - 1)%Z by lia.
    reflexivity.
  - rewrite baseline_of_defined_iff. cbn [fst snd]. split; [tauto |].
    intros Hk. split; [lia | exact Hk].
Qed.

Lemma baseline_of_wraps_witness :
  let hole_ctrs := [(0, 0, 0); (3, 4, 0)] : list hole_pos in
  let n := Z.of_nat (List.length hole_ctrs) in
  (- n < 0 <= 0)%Z /\
  baseline_of hole_ctrs (0%Z, 1%Z) = baseline_of hole_ctrs ((0 + n)%Z, 1%Z) /\
  (baseline_of hole_ctrs (0%Z, 1%Z) <> None <-> (- n < 1 <= n)%Z).
Proof.
  cbv zeta. split; [cbn; lia |].
  apply (baseline_of_wraps [(0, 0, 0); (3, 4, 0)] 0 1). cbn. lia.
Defined.

End Baselines.

Section Triangles.

Local Abbreviation dist p q :=
  (sqrt ((hole_x q - hole_x p) ^ 2 + (hole_y q - hole_y p) ^ 2)).

Lemma dist_sym (p q : hole_pos) : dist p q = dist q p.
Proof. f_equal. ring. Qed.

Lemma dist_via (p q r : hole_pos) : dist p r <= dist p q + dist q r.
Proof.
  replace (hole_x r - hole_x p)
    with ((hole_x q - hole_x p) + (hole_x r - hole_x q)) by ring.
  replace (hole_y r - hole_y p)
    with ((hole_y q - hole_y p) + (hole_y r - hole_y q)) by ring.
  apply dist_triangle.
Qed.

(** X15: for a triangle whose three station indices are accepted, the
    three side lengths are the baseline lengths of the pairs (1,2), (2,3)
    and (3,1); [tri_longest] is one of them, at least as large as each,
    and at most half the perimeter. *)
Theorem triangle_of_sides (hole_ctrs : list hole_pos) (a b c : Z)
    (p1 p2 p3 : hole_pos) :
  Py.index hole_ctrs (a - 1) = Some p1 ->
  Py.index hole_ctrs (b - 1) = Some p2 ->
  Py.index hole_ctrs (c - 1) = Some p3 ->
  exists l12 l23 l31 m : R,
    triangle_of hole_ctrs (a, b, c)
    = Some ([Some l12; Some l23; Some l31], Some m) /\
    baseline_of hole_ctrs (a, b) = Some (Some l12) /\
    baseline_of hole_ctrs (b, c) = Some (Some l23) /\
    baseline_of hole_ctrs (c, a) = Some (Some l31) /\
    l12 <= m /\ l23 <= m /\ l31 <= m /\
    (m = l12 \/ m = l23 \/ m = l31) /\
    2 * m <= l12 + l23 + l31.
Proof.
  intros H1 H2 H3.
  exists (dist p1 p2), (dist p2 p3), (dist p3 p1),
    (Rmax (Rmax (dist p1 p2) (dist p2 p3)) (dist p3 p1)).
  unfold triangle_of, baseline_of. cbn [fst snd].
  rewrite H1, H2, H3, !baseline_length_value.
  split; [reflexivity |]. do 3 (split; [reflexivity |]).
  pose proof (dist_via p1 p3 p2) as T12. rewrite (dist_sym p1 p3) in T12.
  rewrite (dist_sym p3 p2) in T12.
  pose proof (dist_via p2 p1 p3) as T23. rewrite (dist_sym p2 p1) in T23.
  rewrite (dist_sym p1 p3) in T23.
  pose proof (dist_via p3 p2 p1) as T31. rewrite (dist_sym p3 p2) in T31.
  rewrite (dist_sym p2 p1) in T31.
  set (l12 := dist p1 p2) in *. set (l23 := dist p2 p3) in *.
  set (l31 := dist p3 p1) in *.
  unfold Rmax.
  destruct (Rle_dec l12 l23); destruct (Rle_dec _ l31);
    repeat split; try lra; auto.
Qed.

Lemma triangle_of_sides_witness :
  let hole_ctrs := [(0, 0, 0); (3, 0, 0); (3, 4, 0)] : list hole_pos in
  Py.index hole_ctrs (1 - 1) = Some (0, 0, 0) /\
  Py.index hole_ctrs (2 - 1) = Some (3, 0, 0) /\
  Py.index hole_ctrs (3 - 1) = Some (3, 4, 0) /\
  exists l12 l23 l31 m : R,
    triangle_of hole_ctrs (1%Z, 2%Z, 3%Z)
    = Some ([Some l12; Some l23; Some l31], Some m) /\
    baseline_of hole_ctrs (1%Z, 2%Z) = Some (Some l12) /\
    baseline_of hole_ctrs (2%Z, 3%Z) = Some (Some l23) /\
    baseline_of hole_ctrs (3%Z, 1%Z) = Some (Some l31) /\
    l12 <= m /\ l23 <= m /\ l31 <= m /\
    (m = l12 \/ m = l23 \/ m = l31) /\
    2 * m <= l12 + l23 + l31.
Proof.
  cbv zeta. do 3 (split; [reflexivity |]).
  apply (triangle_of_sides [(0, 0, 0); (3, 0, 0); (3, 4, 0)] 1 2 3
           (0, 0, 0) (3, 0, 0) (3, 4, 0)); reflexivity.
Defined.

End Triangles.

(** ** Labels *)

Section Labels.

Local Open Scope string_scope.

Lemma str_inj (i j : Z) : Py.str i = Py.str j -> i = j.
Proof.
  unfold Py.str. intros H. apply DecimalZ.to_int_inj.
  pose proof (NilEmpty.isi (Z.to_int i)) as Hi.
  pose proof (NilEmpty.isi (Z.to_int j)) as Hj.
  rewrite H in Hi. congruence.
Qed.

Lemma uint_no_underscore (d : Decimal.uint) :
  ~ In "_"%char (list_ascii_of_string (NilEmpty.string_of_uint d)).
Proof.
  induction d; cbn [NilEmpty.string_of_uint list_ascii_of_string In];
    intros H; try (destruct H as [H | H]; [discriminate H | now apply IHd]).
  exact H.
Qed.

Lemma str_no_underscore (i : Z) :
  ~ In "_"%char (list_ascii_of_string (Py.str i)).
Proof.
  unfold Py.str. destruct (Z.to_int i) as [d | d];
    cbn [NilEmpty.string_of_int list_ascii_of_string In].
  - apply uint_no_underscore.
  - intros [H | H]; [discriminate H | now apply (uint_no_underscore d)].
Qed.

(** Two strings that agree after a separator absent from their heads have
    the same heads and the same tails. *)
Lemma split_at_underscore (s1 s2 t1 t2 : string) :
  ~ In "_"%char (list_ascii_of_string s1) ->
  ~ In "_"%char (list_ascii_of_string s2) ->
  s1 ++ "_" ++ t1 = s2 ++ "_" ++ t2 -> s1 = s2 /\ t1 = t2.
Proof.
  revert s2. induction s1 as [| a s1 IH]; intros [| b s2] N1 N2 H; cbn in *.
  - injection H as H. now split.
  - injection H as Hb H. exfalso. apply N2. now left.
  - injection H as Ha H. exfalso. apply N1. left. now symmetry.
  - injection H as Hab H.
    destruct (IH s2) as [E1 E2]; [tauto | tauto | exact H |].
    subst. now split.
Qed.

(** X16: the labels identify their baselines and triangles: two pairs
    with the same label are the same pair, and two triples with the same
    label are the same triple. *)
Theorem labels_injective :
  (forall i j : Z * Z, bl_string i = bl_string j -> i = j) /\
  (forall i j : Z * Z * Z, tri_string i = tri_string j -> i = j).
Proof.
  split.
  - intros [a b] [c d]. unfold bl_string. cbn [fst snd]. intros H.
    apply split_at_underscore in H; try apply str_no_underscore.
    destruct H as [H1 H2]. apply str_inj in H1, H2. now subst.
  - intros [[a b] c] [[d e] g]. unfold tri_string. cbn [fst snd]. intros H.
    apply split_at_underscore in H; try apply str_no_underscore.
    destruct H as [H1 H].
    apply split_at_underscore in H; try apply str_no_underscore.
    destruct H as [H2 H3]. apply str_inj in H1, H2, H3. now subst.
Qed.

End Labels.

(** ** Slices *)

Section Slices.

Lemma slice_from_nonneg {A : Type} (l : list A) (a b : Z) :
  (0 <= a <= Z.of_nat (List.length l))%Z -> (0 <= b)%Z ->
  Py.slice l a b
  = firstn (Z.to_nat (Z.min b (Z.of_nat (List.length l)) - a))
           (skipn (Z.to_nat a) l).
Proof.
  intros Ha Hb. unfold Py.slice, Py.bound.
  destruct (a <? 0)%Z eqn:Ea; [apply Z.ltb_lt in Ea; lia |].
  destruct (b <? 0)%Z eqn:Eb; [apply Z.ltb_lt in Eb; lia |].
  now rewrite (Z.min_l a) by lia.
Qed.

Lemma slice_length {A : Type} (l : list A) (a b : Z) :
  (0 <= a <= Z.of_nat (List.length l))%Z -> (0 <= b)%Z ->
  List.length (Py.slice l a b)
  = Z.to_nat (Z.min b (Z.of_nat (List.length l)) - a).
Proof.
  intros Ha Hb. rewrite slice_from_nonneg by assumption.
  rewrite length_firstn, length_skipn. lia.
Qed.

Lemma slice_nth {A : Type} (l : list A) (a b : Z) (k : nat) :
  (0 <= a <= Z.of_nat (List.length l))%Z -> (0 <= b)%Z ->
  (a + Z.of_nat k < Z.min b (Z.of_nat (List.length l)))%Z ->
  nth_error (Py.slice l a b) k = nth_error l (Z.to_nat a + k).
Proof.
  intros Ha Hb Hk. rewrite slice_from_nonneg by assumption.
  rewrite nth_error_firstn, nth_error_skipn.
  destruct (Nat.ltb k _) eqn:E; [reflexivity |].
  apply Nat.ltb_ge in E. lia.
Qed.

(** A window that starts before the sequence wraps around and, on a
    sequence of at least 60 elements, is empty. *)
Lemma slice_window_low_edge {A : Type} (l : list A) (c : Z) :
  (0 <= c < 30)%Z -> (60 <= List.length l)%nat ->
  Py.slice l (c - 30) (c + 30) = [].
Proof.
  intros Hc Hn. unfold Py.slice, Py.bound.
  destruct (c - 30 <? 0)%Z eqn:Ea; [| apply Z.ltb_ge in Ea; lia].
  destruct (c + 30 <? 0)%Z eqn:Eb; [apply Z.ltb_lt in Eb; lia |].
  replace (Z.to_nat _) with 0%nat by lia. reflexivity.
Qed.

Lemma chars_append (s t : string) :
  list_ascii_of_string (s ++ t)
  = list_ascii_of_string s ++ list_ascii_of_string t.
Proof. induction s as [| a s IH]; cbn; [reflexivity | now rewrite IH]. Qed.

Lemma chars_length (s : string) :
  List.length (list_ascii_of_string s) = String.length s.
Proof. induction s as [| a s IH]; cbn; [reflexivity | now rewrite IH]. Qed.

Lemma slice_drop_last {A : Type} (l : list A) (stop : Z) :
  (stop < 0)%Z ->
  Py.slice l 0 stop = firstn (List.length l - Z.to_nat (- stop)) l.
Proof.
  intros Hk. unfold Py.slice, Py.bound.
  destruct (0 <? 0)%Z eqn:E0; [discriminate |].
  destruct (stop <? 0)%Z eqn:E1; [| apply Z.ltb_ge in E1; lia].
  rewrite (Z.min_l 0) by lia. cbn [Z.to_nat skipn]. f_equal. lia.
Qed.

Lemma In_slice {A : Type} (l : list A) (a b : Z) (x : A) :
  In x (Py.slice l a b) -> In x l.
Proof.
  unfold Py.slice. intros H.
  set (i := Z.to_nat (Py.bound (Z.of_nat (List.length l)) a)) in *.
  set (k := Z.to_nat _) in H.
  rewrite <- (firstn_skipn i l). apply in_or_app. right.
  rewrite <- (firstn_skipn k (skipn i l)). apply in_or_app. now left.
Qed.

(** X17: [obase[:-4] + suffix] replaces a four-character extension by the
    suffix; on a name of at most four characters nothing of the name is
    left. *)
Theorem figure_name_strips_extension (base ext obase suffix : string) :
  String.length ext = 4%nat ->
  figure_name (base ++ ext) suffix = (base ++ suffix)%string /\
  ((String.length obase <= 4)%nat -> figure_name obase suffix = suffix).
Proof.
  intros Hext. unfold figure_name, Py.str_slice_to. split.
  - rewrite slice_drop_last by lia.
    rewrite chars_append, length_app, !chars_length, Hext.
    replace (String.length base + 4 - Z.to_nat (- -4))%nat
      with (List.length (list_ascii_of_string base) + 0)%nat
      by (rewrite chars_length; lia).
    rewrite firstn_app_2. cbn [firstn]. rewrite app_nil_r.
    now rewrite string_of_list_ascii_of_string.
  - intros Hlen. rewrite slice_drop_last by lia.
    rewrite chars_length.
    replace (String.length obase - Z.to_nat (- -4))%nat with 0%nat by lia.
    reflexivity.
Qed.

Lemma figure_name_strips_extension_witness :
  String.length ".png" = 4%nat /\
  figure_name ("ami_binary_smear_cov" ++ ".png") "_chi2map.png"
  = ("ami_binary_smear_cov" ++ "_chi2map.png")%string /\
  ((String.length "abc" <= 4)%nat ->
   figure_name "abc" "_chi2map.png" = "_chi2map.png"%string).
Proof.
  split; [reflexivity |].
  apply (figure_name_strips_extension "ami_binary_smear_cov" ".png" "abc"
           "_chi2map.png").
  reflexivity.
Defined.

(** X18: trimming around a brightest pixel at row [r], column [c], both at
    least 30 pixels from the low edges of an image whose rows all have
    [w] pixels: the window has [min 60 (n - r + 30)] rows of
    [min 60 (w - c + 30)] pixels, and the bright pixel is at row 30,
    column 30 of it. *)
Theorem trimmed_window {A : Type} (bright_im : list (list A)) (w : nat)
    (r c : Z) (row : list A) :
  Forall (fun row => List.length row = w) bright_im ->
  (30 <= r < Z.of_nat (List.length bright_im))%Z ->
  (30 <= c < Z.of_nat w)%Z ->
  nth_error bright_im (Z.to_nat r) = Some row ->
  List.length (trimmed bright_im r c)
  = Z.to_nat (Z.min 60 (Z.of_nat (List.length bright_im) - r + 30)) /\
  Forall (fun row' => List.length row'
                      = Z.to_nat (Z.min 60 (Z.of_nat w - c + 30)))
         (trimmed bright_im r c) /\
  exists row' : list A,
    nth_error (trimmed bright_im r c) 30 = Some row' /\
    nth_error row' 30 = nth_error row (Z.to_nat c).
Proof.
  intros Hrect Hr Hc Hrow. unfold trimmed. split; [| split].
  - rewrite length_map, slice_length by lia. lia.
  - apply Forall_map. apply Forall_forall. intros x Hx.
    apply In_slice in Hx.
    rewrite Forall_forall in Hrect. specialize (Hrect x Hx).
    rewrite slice_length by lia. lia.
  - exists (Py.slice row (c - 30) (c + 30)). split.
    + rewrite nth_error_map, slice_nth by lia.
      replace (Z.to_nat (r - 30) + 30)%nat with (Z.to_nat r) by lia.
      now rewrite Hrow.
    + assert (Hw : List.length row = w).
      { rewrite Forall_forall in Hrect. apply Hrect.
        eapply nth_error_In. exact Hrow. }
      rewrite slice_nth by lia. f_equal. lia.
Qed.

End Slices.

Section TrimmingEdges.

Lemma trimmed_window_witness :
  let im := repeat (repeat 0%nat 31) 31 in
  Forall (fun row => List.length row = 31%nat) im /\
  (30 <= 30 < Z.of_nat (List.length im))%Z /\
  (30 <= 30 < Z.of_nat 31)%Z /\
  nth_error im (Z.to_nat 30) = Some (repeat 0%nat 31) /\
  List.length (trimmed im 30 30)
  = Z.to_nat (Z.min 60 (Z.of_nat (List.length im) - 30 + 30)) /\
  Forall (fun row' => List.length row'
                      = Z.to_nat (Z.min 60 (Z.of_nat 31 - 30 + 30)))
         (trimmed im 30 30) /\
  exists row' : list nat,
    nth_error (trimmed im 30 30) 30 = Some row' /\
    nth_error row' 30 = nth_error (repeat 0%nat 31) (Z.to_nat 30).
Proof.
  cbv zeta.
  assert (H1 : Forall (fun row => List.length row = 31%nat)
                      (repeat (repeat 0%nat 31) 31)).
  { apply Forall_forall. intros x Hx. apply repeat_spec in Hx. now subst. }
  assert (H2 : (30 <= 30 < Z.of_nat (List.length (repeat (repeat 0%nat 31) 31)))%Z)
    by (rewrite repeat_length; lia).
  assert (H3 : (30 <= 30 < Z.of_nat 31)%Z) by lia.
  assert (H4 : nth_error (repeat (repeat 0%nat 31) 31) (Z.to_nat 30)
               = Some (repeat 0%nat 31)) by reflexivity.
  split; [exact H1 |]. split; [exact H2 |]. split; [exact H3 |].
  split; [exact H4 |].
  apply (trimmed_window (repeat (repeat 0%nat 31) 31) 31 30 30
           (repeat 0%nat 31) H1 H2 H3 H4).
Defined.

(** X19: a brightest pixel closer than 30 pixels to the low edge is not
    handled: the negative start of the window counts from the far edge, so
    on an image at least 60 pixels high a row [r < 30] leaves no row at
    all, and on rows at least 60 pixels wide a column [c < 30] leaves
    every kept row empty. *)
Theorem trimmed_low_edge {A : Type} (bright_im : list (list A)) (r c : Z) :
  ((0 <= r < 30)%Z -> (60 <= List.length bright_im)%nat ->
   trimmed bright_im r c = []) /\
  ((0 <= c < 30)%Z ->
   Forall (fun row => (60 <= List.length row)%nat) bright_im ->
   Forall (fun row' => row' = []) (trimmed bright_im r c)).
Proof.
  unfold trimmed. split.
  - intros Hr Hn. now rewrite slice_window_low_edge.
  - intros Hc Hw. apply Forall_map, Forall_forall. intros x Hx.
    apply In_slice in Hx. rewrite Forall_forall in Hw.
    apply slice_window_low_edge; [exact Hc | now apply Hw].
Qed.

End TrimmingEdges.

(** ** The spectrum table *)

Section SpectrumTable.

Lemma unc_entry (w : R) :
  (Np.fin 1 / Np.sqrt (Np.fin w))%np
  = if Rlt_dec 0 w then Some (1 / sqrt w) else None.
Proof.
  unfold Np.fin, Np.sqrt.
  destruct (Rlt_dec 0 w) as [Hw | Hw].
  - destruct (Rle_dec 0 w); [| lra].
    apply np_div_nonzero. apply Rgt_not_eq. now apply sqrt_lt_R0.
  - destruct (Rle_dec 0 w) as [Hw' | Hw']; [| reflexivity].
    assert (w = 0) by lra. subst w. rewrite sqrt_0. apply np_div_zero.
Qed.

(** X20: the uncertainty [1/sqrt(wht)] of a pixel is finite, and then
    positive, exactly when its weight is positive: a weight of zero (an
    infinity) or a negative weight (a nan) leaves it undefined. *)
Theorem unc_defined_iff (wht : list R) (i : nat) (w : R) :
  nth_error wht i = Some w ->
  exists u : Np.scalar,
    nth_error (unc wht) i = Some u /\
    (0 < w -> u = Some (1 / sqrt w) /\ 0 < 1 / sqrt w) /\
    (w <= 0 -> u = None) /\
    (u <> None <-> 0 < w).
Proof.
  intros H. unfold unc. rewrite nth_error_map, H. cbn [option_map].
  eexists. split; [reflexivity |]. rewrite unc_entry.
  destruct (Rlt_dec 0 w) as [Hw | Hw].
  - split; [intros _ | split; [lra |]].
    + split; [reflexivity |]. apply Rdiv_lt_0_compat; [lra |].
      now apply sqrt_lt_R0.
    + split; [intros _; exact Hw | discriminate].
  - split; [lra |]. split; [reflexivity |]. split; [congruence | lra].
Qed.

Lemma unc_defined_iff_witness :
  nth_error [4; 0] 0 = Some 4 /\
  exists u : Np.scalar,
    nth_error (unc [4; 0]) 0 = Some u /\
    (0 < 4 -> u = Some (1 / sqrt 4) /\ 0 < 1 / sqrt 4) /\
    (4 <= 0 -> u = None) /\
    (u <> None <-> 0 < 4).
Proof.
  split; [reflexivity |].
  apply (unc_defined_iff [4; 0] 0 4). reflexivity.
Defined.

Lemma map_fst_combine {A B : Type} (l : list A) (l' : list B) :
  List.length l = List.length l' -> map fst (combine l l') = l.
Proof.
  revert l'. induction l as [| a l IH]; intros [| b l'] H; cbn in *;
    try discriminate; [reflexivity |].
  f_equal. apply IH. lia.
Qed.

Lemma map_snd_combine {A B : Type} (l : list A) (l' : list B) :
  List.length l = List.length l' -> map snd (combine l l') = l'.
Proof.
  revert l'. induction l as [| a l IH]; intros [| b l'] H; cbn in *;
    try discriminate; [reflexivity |].
  f_equal. apply IH. lia.
Qed.

Lemma wave_length (n : nat) (cd crval : R) :
  List.length (wave n cd crval) = n.
Proof. unfold wave. now rewrite length_map, length_seq. Qed.

Lemma unc_length (wht : list R) : List.length (unc wht) = List.length wht.
Proof. unfold unc. apply length_map. Qed.

Lemma dataspec_some_columns (fl wh : list R) (cd crval : R)
    (rows : list spec_row) :
  dataspec fl wh cd crval = Some rows ->
  List.length rows = List.length fl /\
  map wavelength rows = wave (List.length fl) cd crval /\
  map flux rows = fl /\
  map weight rows = wh /\
  map uncertainty rows = unc wh.
Proof.
  unfold dataspec.
  destruct (Nat.eqb (List.length fl) (List.length wh)) eqn:E; [| discriminate].
  apply Nat.eqb_eq in E. intros H. injection H as <-.
  assert (L1 : List.length (combine (wave (List.length fl) cd crval) fl)
               = List.length fl)
    by (rewrite length_combine, wave_length; lia).
  assert (L2 : List.length (combine wh (unc wh)) = List.length wh)
    by (rewrite length_combine, unc_length; lia).
  split; [rewrite length_map, length_combine; lia |].
  rewrite !map_map. cbn [wavelength flux weight uncertainty].
  repeat split.
  - rewrite <- (map_map fst fst), map_fst_combine by lia.
    apply map_fst_combine. now rewrite wave_length.
  - rewrite <- (map_map fst snd), map_fst_combine by lia.
    apply map_snd_combine. now rewrite wave_length.
  - rewrite <- (map_map snd fst), map_snd_combine by lia.
    apply map_fst_combine. now rewrite unc_length.
  - rewrite <- (map_map snd snd), map_snd_combine by lia.
    apply map_snd_combine. now rewrite unc_length.
Qed.

(** Every row of the table carries the uncertainty of its own weight. *)
Lemma dataspec_row_invariant (fl wh : list R) (cd crval : R)
    (rows : list spec_row) :
  dataspec fl wh cd crval = Some rows ->
  Forall (fun row => uncertainty row
                     = if Rlt_dec 0 (weight row)
                       then Some (1 / sqrt (weight row)) else None) rows.
Proof.
  intros H.
  destruct (dataspec_some_columns fl wh cd crval rows H) as [_ [_ [_ [Hw Hu]]]].
  clear H. revert wh Hw Hu.
  induction rows as [| row rows IH]; intros wh Hw Hu; constructor.
  - destruct wh as [| w wh]; [discriminate |].
    cbn in Hw, Hu. injection Hw as Hw0 _. injection Hu as Hu0 _.
    rewrite Hu0, Hw0. apply unc_entry.
  - destruct wh as [| w wh]; [discriminate |].
    cbn in Hw, Hu. injection Hw as _ Hw. injection Hu as _ Hu.
    exact (IH wh Hw Hu).
Qed.

(** X22: selecting the rows of positive weight is selecting the rows with
    a finite uncertainty: a row of the table is kept exactly when its
    uncertainty is defined, and every kept row has a positive weight and a
    positive uncertainty [1/sqrt(weight)]. *)
Theorem dataspec_sub_finite (fl wh : list R) (cd crval : R)
    (rows : list spec_row) :
  dataspec fl wh cd crval = Some rows ->
  (forall row, In row (dataspec_sub rows)
               <-> In row rows /\ uncertainty row <> None) /\
  (forall row, In row (dataspec_sub rows) ->
     0 < weight row /\
     uncertainty row = Some (1 / sqrt (weight row)) /\
     0 < 1 / sqrt (weight row)).
Proof.
  intros H. pose proof (dataspec_row_invariant _ _ _ _ _ H) as Inv.
  rewrite Forall_forall in Inv. unfold dataspec_sub, positive_weight.
  split; intros row.
  - rewrite filter_In. split; intros [Hin Hk]; (split; [exact Hin |]).
    + rewrite (Inv row Hin). destruct (Rlt_dec 0 (weight row)); [discriminate | discriminate].
    + rewrite (Inv row Hin) in Hk.
      destruct (Rlt_dec 0 (weight row)); [reflexivity | congruence].
  - rewrite filter_In. intros [Hin Hk].
    destruct (Rlt_dec 0 (weight row)) as [Hw | Hw] eqn:E; [| discriminate].
    split; [exact Hw |]. split.
    + rewrite (Inv row Hin), E. reflexivity.
    + apply Rdiv_lt_0_compat; [lra | now apply sqrt_lt_R0].
Qed.

End SpectrumTable.

Section WavelengthGrid.

Lemma dataspec_sub_finite_witness :
  let rows :=
    [SpecRow (INR 0 * 1 + 0) 1 4 (Np.fin 1 / Np.sqrt (Np.fin 4))%np;
     SpecRow (INR 1 * 1 + 0) 2 0 (Np.fin 1 / Np.sqrt (Np.fin 0))%np] in
  dataspec [1; 2] [4; 0] 1 0 = Some rows /\
  (forall row, In row (dataspec_sub rows)
               <-> In row rows /\ uncertainty row <> None) /\
  (forall row, In row (dataspec_sub rows) ->
     0 < weight row /\
     uncertainty row = Some (1 / sqrt (weight row)) /\
     0 < 1 / sqrt (weight row)).
Proof.
  cbv zeta.
  assert (H : dataspec [1; 2] [4; 0] 1 0
              = Some [SpecRow (INR 0 * 1 + 0) 1 4 (Np.fin 1 / Np.sqrt (Np.fin 4))%np;
                      SpecRow (INR 1 * 1 + 0) 2 0 (Np.fin 1 / Np.sqrt (Np.fin 0))%np])
    by reflexivity.
  split; [exact H |].
  apply (dataspec_sub_finite [1; 2] [4; 0] 1 0 _ H).
Defined.

Lemma wave_nth (n : nat) (cd crval : R) (i : nat) :
  nth_error (wave n cd crval) i
  = if Nat.ltb i n then Some (INR i * cd + crval) else None.
Proof.
  unfold wave. rewrite nth_error_map, nth_error_seq.
  destruct (Nat.ltb i n); reflexivity.
Qed.

(** X23: the wavelength grid has one value per pixel, pixel [i] is at
    [crval + i*cd], and two pixels [i] and [j] are [(j - i) * cd] apart;
    so the grid starts at [crval] and, for a positive step, increases
    strictly. *)
Theorem wave_grid (n : nat) (cd crval : R) :
  List.length (wave n cd crval) = n /\
  (forall i a, nth_error (wave n cd crval) i = Some a
               <-> (i < n)%nat /\ a = crval + INR i * cd) /\
  (forall i j a b,
     nth_error (wave n cd crval) i = Some a ->
     nth_error (wave n cd crval) j = Some b ->
     b - a = (INR j - INR i) * cd /\
     (0 < cd -> (i < j)%nat -> a < b)).
Proof.
  split; [apply wave_length |]. split.
  - intros i a. rewrite wave_nth. destruct (Nat.ltb i n) eqn:E.
    + apply Nat.ltb_lt in E. split.
      * intros [= <-]. split; [exact E | ring].
      * intros [_ ->]. f_equal. ring.
    + apply Nat.ltb_ge in E. split; [discriminate | intros [H _]; lia].
  - intros i j a b Ha Hb. rewrite wave_nth in Ha, Hb.
    destruct (Nat.ltb i n); [| discriminate].
    destruct (Nat.ltb j n); [| discriminate].
    injection Ha as <-. injection Hb as <-. split; [ring |].
    intros Hcd Hij. apply lt_INR in Hij. nra.
Qed.

Lemma wave_sorted (n : nat) (cd crval : R) :
  0 < cd -> StronglySorted Rlt (wave n cd crval).
Proof.
  intros Hcd. unfold wave. generalize 0%nat as start.
  induction n as [| n IH]; intros start; cbn [seq map]; constructor.
  - apply IH.
  - apply Forall_map, Forall_forall. intros k Hk. apply in_seq in Hk.
    assert (INR start < INR k) by (apply lt_INR; lia). nra.
Qed.

Lemma sorted_filter_map {A : Type} (key : A -> R) (keep : A -> bool)
    (l : list A) :
  StronglySorted Rlt (map key l) ->
  StronglySorted Rlt (map key (filter keep l)).
Proof.
  induction l as [| a l IH]; cbn [map filter]; intros H; [constructor |].
  inversion H as [| ? ? Hs Hall]; subst.
  destruct (keep a); [| now apply IH].
  cbn [map]. constructor; [now apply IH |].
  rewrite Forall_map in *. rewrite Forall_forall in *.
  intros x Hx. apply filter_In in Hx. now apply Hall.
Qed.

(** X24: for a positive step the kept rows are still ordered by strictly
    increasing wavelength, and there are no more of them than pixels. *)
Theorem dataspec_sub_sorted (fl wh : list R) (cd crval : R)
    (rows : list spec_row) :
  0 < cd ->
  dataspec fl wh cd crval = Some rows ->
  StronglySorted Rlt (map wavelength (dataspec_sub rows)) /\
  (List.length (dataspec_sub rows) <= List.length fl)%nat.
Proof.
  intros Hcd H.
  destruct (dataspec_some_columns fl wh cd crval rows H) as [Hlen [Hwave _]].
  split.
  - apply sorted_filter_map. rewrite Hwave. now apply wave_sorted.
  - rewrite <- Hlen. apply filter_length_le.
Qed.

Lemma dataspec_sub_sorted_witness :
  let rows :=
    [SpecRow (INR 0 * 1 + 0) 1 4 (Np.fin 1 / Np.sqrt (Np.fin 4))%np;
     SpecRow (INR 1 * 1 + 0) 2 0 (Np.fin 1 / Np.sqrt (Np.fin 0))%np] in
  0 < 1 /\
  dataspec [1; 2] [4; 0] 1 0 = Some rows /\
  StronglySorted Rlt (map wavelength (dataspec_sub rows)) /\
  (List.length (dataspec_sub rows) <= List.length [1; 2])%nat.
Proof.
  cbv zeta.
  assert (H : dataspec [1; 2] [4; 0] 1 0
              = Some [SpecRow (INR 0 * 1 + 0) 1 4 (Np.fin 1 / Np.sqrt (Np.fin 4))%np;
                      SpecRow (INR 1 * 1 + 0) 2 0 (Np.fin 1 / Np.sqrt (Np.fin 0))%np])
    by reflexivity.
  split; [lra |]. split; [exact H |].
  apply (dataspec_sub_sorted [1; 2] [4; 0] 1 0 _ Rlt_0_1 H).
Defined.

End WavelengthGrid.

(** ** Template files *)

Section TemplateFiles.

Local Open Scope string_scope.

Lemma uint_of_zeros (k : nat) (s : string) :
  NilEmpty.uint_of_string (Py.zeros k ++ s)
  = option_map (Nat.iter k Decimal.D0) (NilEmpty.uint_of_string s).
Proof.
  induction k as [| k IH]; cbn [Py.zeros append Nat.iter].
  - now destruct (NilEmpty.uint_of_string s).
  - cbn [NilEmpty.uint_of_string]. rewrite IH.
    now destruct (NilEmpty.uint_of_string s).
Qed.

Lemma of_uint_leading_zeros (k : nat) (d : Decimal.uint) :
  Nat.of_uint (Nat.iter k Decimal.D0 d) = Nat.of_uint d.
Proof.
  induction k as [| k IH]; [reflexivity |].
  cbn [Nat.iter]. rewrite <- IH. reflexivity.
Qed.

(** The digits written by ['{:05d}'] read back as the number. *)
Lemma format_05d_decodes (i : nat) :
  option_map Nat.of_uint (NilEmpty.uint_of_string (Py.format_05d i)) = Some i.
Proof.
  unfold Py.format_05d. rewrite uint_of_zeros, NilEmpty.usu.
  cbn [option_map]. rewrite of_uint_leading_zeros.
  now rewrite DecimalNat.Unsigned.of_to.
Qed.

Lemma format_05d_inj (i j : nat) : Py.format_05d i = Py.format_05d j -> i = j.
Proof.
  intros H. pose proof (format_05d_decodes i) as Hi.
  rewrite H, format_05d_decodes in Hi. congruence.
Qed.

Lemma append_cancel_l (s t t' : string) : s ++ t = s ++ t' -> t = t'.
Proof.
  induction s as [| a s IH]; cbn; intros H; [exact H |].
  injection H as H. now apply IH.
Qed.

Lemma append_cancel_r (s s' t : string) : s ++ t = s' ++ t -> s = s'.
Proof.
  intros H. apply (f_equal list_ascii_of_string) in H.
  rewrite !chars_append in H. apply app_inv_tail in H.
  rewrite <- (string_of_list_ascii_of_string s).
  rewrite <- (string_of_list_ascii_of_string s'). now rewrite H.
Qed.

Lemma string_length_append (s t : string) :
  String.length (s ++ t) = (String.length s + String.length t)%nat.
Proof. induction s as [| a s IH]; cbn; [reflexivity | now rewrite IH]. Qed.

Lemma template_file_inj (templatedir : string) (i j : nat) :
  template_file templatedir i = template_file templatedir j -> i = j.
Proof.
  unfold template_file. intros H.
  apply append_cancel_l, append_cancel_r in H. now apply format_05d_inj.
Qed.

(** X25: the loop reads 100 template files, [00001.dat] to [00100.dat] in
    the template directory, no file twice; every name is the directory
    followed by nine characters.  More generally two different numbers
    never give the same file name. *)
Theorem template_files_distinct (templatedir : string) :
  List.length (template_files templatedir) = 100%nat /\
  NoDup (template_files templatedir) /\
  hd_error (template_files templatedir) = Some (templatedir ++ "00001.dat") /\
  nth_error (template_files templatedir) 99 = Some (templatedir ++ "00100.dat") /\
  Forall (fun name => String.length name = (String.length templatedir + 9)%nat)
         (template_files templatedir) /\
  (forall i j : nat,
     template_file templatedir i = template_file templatedir j -> i = j).
Proof.
  unfold template_files. split; [now rewrite length_map, length_seq |].
  split.
  - apply NoDup_map_NoDup_ForallPairs; [| apply seq_NoDup].
    intros i j _ _. apply template_file_inj.
  - split; [reflexivity |]. split; [reflexivity |]. split.
    + apply Forall_map, Forall_forall. intros i Hi.
      unfold template_file. rewrite string_length_append. f_equal.
      revert i Hi. apply Forall_forall.
      cbv [seq]. repeat (constructor; [reflexivity |]). constructor.
    + intros i j. apply template_file_inj.
Qed.

End TemplateFiles.
